(** * The snippet library of [src/text_snippets.cpp]

    A shallow embedding of [snippet_library]: the category and id indices,
    the loading entry points (with the exceptions they raise), the lazily
    built hash migration map, seeded random selection and tag expansion,
    followed by the properties established about them. *)

From Stdlib Require Import ZArith Ascii.
From stdpp Require Import base option list gmap strings fin_maps.

Local Open Scope Z_scope.
Local Open Scope nat_scope.

Set Warnings "-register-all".

(** ** [std::string] operations used by the library *)

Module StdString.

(** [str.find( c )]; [None] stands for [std::string::npos]. *)
Fixpoint find (c : ascii) (str : string) : option nat :=
  match str with
  | EmptyString => None
  | String a rest => if Ascii.eqb a c then Some 0 else S <$> find c rest
  end.

(** [str.substr( pos )]. Every call site below has [pos <= str.size()],
    where C++ does not raise. *)
Fixpoint drop (pos : nat) (str : string) : string :=
  match pos, str with
  | 0, _ => str
  | S _, EmptyString => EmptyString
  | S pos, String _ rest => drop pos rest
  end.

(** [str.substr( 0, len )]: at most [len] characters. *)
Fixpoint take (len : nat) (str : string) : string :=
  match len, str with
  | 0, _ => EmptyString
  | S _, EmptyString => EmptyString
  | S len, String a rest => String a (take len rest)
  end.

(** [str.substr( pos, len )]. *)
Definition substr (pos len : nat) (str : string) : string :=
  take len (drop pos str).

(** [str.find( c, pos )]. *)
Definition find_from (c : ascii) (pos : nat) (str : string) : option nat :=
  (fun i => pos + i) <$> find c (drop pos str).

(** The character [c] does not occur in [str]. *)
Fixpoint lacks (c : ascii) (str : string) : Prop :=
  match str with
  | EmptyString => True
  | String a rest => a ≠ c ∧ lacks c rest
  end.

End StdString.

(** ** The JSON values handed over by the reader *)

Inductive JsonValue : Type :=
| JsonNull
| JsonBool (b : bool)
| JsonNumber (z : Z)
| JsonString (s : string)
| JsonArray (elements : list JsonValue)
| JsonObject (members : list (string * JsonValue)).

Abbreviation JsonMembers := (list (string * JsonValue)).

(** What the loading functions throw. *)
Inductive JsonError : Type :=
| throw_error (message : string)
      (* [entry.throw_error( message )] *)
| throw_error_at (member message : string)
      (* [jo.throw_error_at( member, message )] *)
| reader_error (member : string).
      (* raised inside the JSON reader for a member that is missing or
         cannot be read at the requested type *)

Definition InvalidId : JsonError := throw_error_at "id" "Null snippet id specified".
Definition DuplicateId : JsonError := throw_error_at "id" "Duplicate snippet id".

(** How a call that may throw ends. *)
Inductive outcome (A : Type) : Type :=
| Returns (a : A)
| Throws (e : JsonError).
Arguments Returns {A} a.
Arguments Throws {A} e.

(** [jo.get_member( name )] as an option. *)
Fixpoint get_member (jo : JsonMembers) (name : string) : option JsonValue :=
  match jo with
  | [] => None
  | (k, v) :: rest => if decide (k = name) then Some v else get_member rest name
  end.

(** [jo.has_member( name )]. *)
Definition has_member (jo : JsonMembers) (name : string) : bool :=
  bool_decide (is_Some (get_member jo name)).

(** [jo.has_array( name )]. *)
Definition has_array (jo : JsonMembers) (name : string) : bool :=
  match get_member jo name with
  | Some (JsonArray _) => true
  | _ => false
  end.

(** [entry.test_string()]. *)
Definition test_string (entry : JsonValue) : bool :=
  match entry with
  | JsonString _ => true
  | _ => false
  end.

(** A [snippet_id] is a [string_id<translation>]: an interned string. *)
Abbreviation snippet_id := string (only parsing).

(** ** Collaborators declared outside this file

    The translation type, the dialogue effect type, the null id, the global
    random engine and the standard library's seeded distribution are
    declared in other headers; the library only uses the operations listed
    here, so they are taken as an interface. *)

Class Collaborators : Type := {
  translation : Type;
  (** [translation()], the default constructed (empty) translation *)
  empty_translation : translation;
  (** [t.translated()] *)
  translated : translation → string;
  (** [t.legacy_hash()] *)
  legacy_hash : translation → option Z;
  (** reading a [translation] from a JSON value; [None] when it cannot be read *)
  read_translation : JsonValue → option translation;
  (** [talk_effect_t<dialogue>] *)
  talk_effect : Type;
  (** [talk_effect_t<dialogue>( jo, member )]; [None] when the constructor throws *)
  read_talk_effect : JsonMembers → string → option talk_effect;
  (** [snippet_id::NULL_ID()] *)
  NULL_ID : snippet_id;
  (** the state of the global random engine behind [rng_bits()] *)
  rng_engine : Type;
  (** [rng_bits()]: the drawn value and the advanced engine *)
  rng_bits : rng_engine → Z * rng_engine;
  (** [std::uniform_int_distribution<size_t>( a, b )] applied to a
      [std::mt19937] freshly seeded with [seed] *)
  mt19937_uniform : Z → nat → nat → nat;
  (** the distribution's range guarantee *)
  mt19937_uniform_range : ∀ seed a b, a ≤ b → a ≤ mt19937_uniform seed a b ≤ b;
  (** C++ leaves the order in which the two recursive calls of [expand]
      run unspecified; [true] runs the replacement first *)
  replacement_first : bool;
}.

Section Library.
Context `{C : Collaborators}.

(** ** The registry *)

Record category_snippets : Type := mk_category_snippets {
  ids : list snippet_id;
  no_id : list translation;
}.

Record snippet_library : Type := mk_snippet_library {
  snippets_by_category : gmap string category_snippets;
  snippets_by_id : gmap string translation;
  EOC_by_id : gmap string talk_effect;
  name_by_id : gmap string translation;
  hash_to_id_migration : option (gmap Z string);
}.

(** The default constructed [category_snippets] that [operator[]] inserts. *)
Definition empty_category : category_snippets :=
  {| ids := []; no_id := [] |}.

(** The freshly constructed global [SNIPPET]. *)
Definition SNIPPET : snippet_library :=
  {| snippets_by_category := ∅; snippets_by_id := ∅; EOC_by_id := ∅;
     name_by_id := ∅; hash_to_id_migration := None |}.

(** ** Loading: registry state threaded through calls that may throw *)

(** A member function that mutates the library and may throw: the state it
    leaves behind is kept in both cases. *)
Definition Load (A : Type) : Type := snippet_library → outcome A * snippet_library.

Definition load_ret {A} (a : A) : Load A := fun s => (Returns a, s).
Definition load_throw {A} (e : JsonError) : Load A := fun s => (Throws e, s).
Definition load_bind {A B} (m : Load A) (k : A → Load B) : Load B :=
  fun s => match m s with
           | (Returns a, s') => k a s'
           | (Throws e, s') => (Throws e, s')
           end.
Definition load_get : Load snippet_library := fun s => (Returns s, s).
Definition load_modify (f : snippet_library → snippet_library) : Load unit :=
  fun s => (Returns tt, f s).
(** Lifting a read that fails with the given exception. *)
Definition load_read {A} (o : option A) (e : JsonError) : Load A :=
  match o with
  | Some a => load_ret a
  | None => load_throw e
  end.

Notation "'let*' x ':=' m 'in' k" := (load_bind m (fun x => k))
  (at level 10, x name, m at level 100, k at level 200, only parsing).
Notation "m ';;' k" := (load_bind m (fun _ => k))
  (at level 100, k at level 200, right associativity, only parsing).

(** *** Field updates *)

Definition set_hash_to_id_migration (v : option (gmap Z string))
    (s : snippet_library) : snippet_library :=
  {| snippets_by_category := snippets_by_category s;
     snippets_by_id := snippets_by_id s;
     EOC_by_id := EOC_by_id s;
     name_by_id := name_by_id s;
     hash_to_id_migration := v |}.

(** [snippets_by_category[category]]: the bucket, default constructed when
    the category is new. *)
Definition category_or_default (s : snippet_library) (category : string)
    : category_snippets :=
  default empty_category (snippets_by_category s !! category).

(** [snippets_by_category[category].ids.emplace_back( id )] *)
Definition push_id (category : string) (id : snippet_id)
    (s : snippet_library) : snippet_library :=
  let bucket := category_or_default s category in
  {| snippets_by_category :=
       <[category := {| ids := ids bucket ++ [id]; no_id := no_id bucket |}]>
         (snippets_by_category s);
     snippets_by_id := snippets_by_id s;
     EOC_by_id := EOC_by_id s;
     name_by_id := name_by_id s;
     hash_to_id_migration := hash_to_id_migration s |}.

(** [snippets_by_category[category].no_id.emplace_back( text )] *)
Definition push_no_id (category : string) (text : translation)
    (s : snippet_library) : snippet_library :=
  let bucket := category_or_default s category in
  {| snippets_by_category :=
       <[category := {| ids := ids bucket; no_id := no_id bucket ++ [text] |}]>
         (snippets_by_category s);
     snippets_by_id := snippets_by_id s;
     EOC_by_id := EOC_by_id s;
     name_by_id := name_by_id s;
     hash_to_id_migration := hash_to_id_migration s |}.

(** [snippets_by_id[id] = text] *)
Definition set_snippet (id : snippet_id) (text : translation)
    (s : snippet_library) : snippet_library :=
  {| snippets_by_category := snippets_by_category s;
     snippets_by_id := <[id := text]> (snippets_by_id s);
     EOC_by_id := EOC_by_id s;
     name_by_id := name_by_id s;
     hash_to_id_migration := hash_to_id_migration s |}.

(** [EOC_by_id[id] = effect] *)
Definition set_EOC (id : snippet_id) (effect : talk_effect)
    (s : snippet_library) : snippet_library :=
  {| snippets_by_category := snippets_by_category s;
     snippets_by_id := snippets_by_id s;
     EOC_by_id := <[id := effect]> (EOC_by_id s);
     name_by_id := name_by_id s;
     hash_to_id_migration := hash_to_id_migration s |}.

(** [name_by_id[id] = name] *)
Definition set_name (id : snippet_id) (name : translation)
    (s : snippet_library) : snippet_library :=
  {| snippets_by_category := snippets_by_category s;
     snippets_by_id := snippets_by_id s;
     EOC_by_id := EOC_by_id s;
     name_by_id := <[id := name]> (name_by_id s);
     hash_to_id_migration := hash_to_id_migration s |}.

(** *** Reads delegated to the JSON layer *)

(** [mandatory( jo, false, name, text )]: throws when the member is missing
    or cannot be read. *)
Definition mandatory (jo : JsonMembers) (name : string) : Load translation :=
  load_read (get_member jo name ≫= read_translation) (reader_error name).

(** [optional( jo, false, name, value )]: the default when the member is
    missing, an exception when it is present and cannot be read. *)
Definition optional (jo : JsonMembers) (name : string) : Load translation :=
  match get_member jo name with
  | None => load_ret empty_translation
  | Some v => load_read (read_translation v) (reader_error name)
  end.

(** [jo.read( "id", id )]: the id is the member's string. *)
Definition read_id (jo : JsonMembers) (name : string) : Load snippet_id :=
  match get_member jo name with
  | Some (JsonString id) => load_ret id
  | _ => load_throw (reader_error name)
  end.

(** [jo.get_string( name )] *)
Definition get_string (jo : JsonMembers) (name : string) : Load string :=
  match get_member jo name with
  | Some (JsonString str) => load_ret str
  | _ => load_throw (reader_error name)
  end.

(** [jo.get_array( name )], called only under [has_array]. *)
Definition get_array (jo : JsonMembers) (name : string) : list JsonValue :=
  match get_member jo name with
  | Some (JsonArray elements) => elements
  | _ => []
  end.

(** *** The three loading entry points

    Each begins by resetting [hash_to_id_migration]; the [debugmsg] issued
    when the map had already been built writes to the debug channel only
    and leaves the library untouched, so it is not part of the state. *)

Definition add_snippet_from_json (category : string) (jo : JsonMembers)
    : Load unit :=
  load_modify (set_hash_to_id_migration None) ;;
  let* text := mandatory jo "text" in
  if has_member jo "id" then
    let* id := read_id jo "id" in
    (if decide (id = NULL_ID) then load_throw InvalidId else load_ret tt) ;;
    let* s := load_get in
    (if decide (is_Some (snippets_by_id s !! id))
     then load_throw DuplicateId else load_ret tt) ;;
    load_modify (push_id category id) ;;
    load_modify (set_snippet id text) ;;
    (if has_member jo "effect_on_examine" then
       let* effect := load_read (read_talk_effect jo "effect_on_examine")
                                (reader_error "effect_on_examine") in
       load_modify (set_EOC id effect)
     else load_ret tt) ;;
    let* name := optional jo "name" in
    load_modify (set_name id name)
  else
    load_modify (push_no_id category text).

(** One iteration of the loop over the array. *)
Definition add_array_entry (category : string) (entry : JsonValue) : Load unit :=
  if test_string entry then
    let* text := load_read (read_translation entry)
                           (throw_error "Error reading snippet from JSON array") in
    load_modify (push_no_id category text)
  else
    match entry with
    | JsonObject jo => add_snippet_from_json category jo
    | _ => load_throw (reader_error "")   (* [entry.get_object()] throws *)
    end.

Fixpoint for_each_entry (category : string) (jarr : list JsonValue) : Load unit :=
  match jarr with
  | [] => load_ret tt
  | entry :: rest => add_array_entry category entry ;; for_each_entry category rest
  end.

Definition add_snippets_from_json (category : string) (jarr : list JsonValue)
    : Load unit :=
  load_modify (set_hash_to_id_migration None) ;;
  for_each_entry category jarr.

Definition load_snippet (jsobj : JsonMembers) : Load unit :=
  load_modify (set_hash_to_id_migration None) ;;
  let* category := get_string jsobj "category" in
  if has_array jsobj "text" then
    add_snippets_from_json category (get_array jsobj "text")
  else
    add_snippet_from_json category jsobj.

(** [clear_snippets()] *)
Definition clear_snippets (s : snippet_library) : snippet_library :=
  {| snippets_by_category := ∅;
     snippets_by_id := ∅;
     EOC_by_id := EOC_by_id s;
     name_by_id := name_by_id s;
     hash_to_id_migration := None |}.

(** ** Queries *)

Definition has_category (s : snippet_library) (category : string) : bool :=
  bool_decide (is_Some (snippets_by_category s !! category)).

Definition get_snippet_by_id (s : snippet_library) (id : snippet_id)
    : option translation :=
  snippets_by_id s !! id.

Definition get_EOC_by_id (s : snippet_library) (id : snippet_id)
    : option talk_effect :=
  EOC_by_id s !! id.

Definition get_name_by_id (s : snippet_library) (id : snippet_id)
    : option translation :=
  name_by_id s !! id.

Definition get_snippet_ref_by_id (s : snippet_library) (id : snippet_id)
    : translation :=
  match snippets_by_id s !! id with
  | None => empty_translation
  | Some text => text
  end.

Definition has_snippet_with_id (s : snippet_library) (id : snippet_id) : bool :=
  bool_decide (is_Some (snippets_by_id s !! id)).

(** [v.empty()] *)
Definition empty {A} (v : list A) : bool :=
  match v with
  | [] => true
  | _ :: _ => false
  end.

(** ** Seeded random selection *)

Definition random_from_category (s : snippet_library) (cat : string) (seed : Z)
    : option translation :=
  match snippets_by_category s !! cat with
  | None => None
  | Some it =>
      if empty (ids it) && empty (no_id it) then None
      else
        let count := length (ids it) + length (no_id it) in
        let index := mt19937_uniform seed 0 (count - 1) in
        if decide (index < length (ids it)) then
          (* [ids[index]] is in range by the test just made *)
          ids it !! index ≫= get_snippet_by_id s
        else
          (* in range because [index <= count - 1] *)
          no_id it !! (index - length (ids it))
  end.

(** The overload without a seed takes it from [rng_bits()]. *)
Definition random_from_category_rng (s : snippet_library) (cat : string)
    (g : rng_engine) : option translation * rng_engine :=
  let '(seed, g') := rng_bits g in
  (random_from_category s cat seed, g').

(** ** Hash migration *)

(** [hash_to_id_migration->emplace( hash.value(), id )] for one entry of
    [snippets_by_id]; [emplace] keeps the element already stored under the
    key. *)
Definition emplace_hash (m : gmap Z string) (id_and_text : string * translation)
    : gmap Z string :=
  match legacy_hash id_and_text.2 with
  | Some hash =>
      match m !! hash with
      | Some _ => m
      | None => <[hash := id_and_text.1]> m
      end
  | None => m
  end.

(** The loop over [snippets_by_id]. The container's iteration order is not
    specified; [map_to_list] fixes one, and nothing proved below depends on
    which. *)
Definition build_hash_to_id (by_id : gmap string translation) : gmap Z string :=
  foldl emplace_hash ∅ (map_to_list by_id).

Definition migrate_hash_to_id (old_hash : Z) (s : snippet_library)
    : snippet_id * snippet_library :=
  let s' :=
    match hash_to_id_migration s with
    | Some _ => s
    | None =>
        set_hash_to_id_migration (Some (build_hash_to_id (snippets_by_id s))) s
    end in
  match hash_to_id_migration s' ≫= lookup old_hash with
  | None => (NULL_ID, s')
  | Some id => (id, s')
  end.

(** ** Listing a category *)

Definition get_snippets_by_category (s : snippet_library) (cat : string)
    (add_null_id : bool) : list (snippet_id * string) :=
  let ret := [] in
  if negb (has_category s cat) then ret
  else
    match snippets_by_category s !! cat with
    | Some snipps =>
        let ret :=
          if add_null_id && negb (empty (ids snipps))
          then ret ++ [(NULL_ID, EmptyString)] else ret in
        foldl (fun ret id =>
                 let desc := translated (get_snippet_ref_by_id s id) in
                 ret ++ [(id, desc)])
              ret (ids snipps)
    | None => ret
    end.

(** ** Tag expansion

    [expand] recurses on the drawn replacement, which need not be shorter
    than the input, so the recursion is bounded by [fuel]; [None] means the
    bound was reached.  The random engine is threaded through the calls. *)

Definition Expand : Type := rng_engine → option (string * rng_engine).

Definition expand_bind (m : Expand) (k : string → Expand) : Expand :=
  fun g => match m g with
           | Some (out, g') => k out g'
           | None => None
           end.

Definition expand_ret (out : string) : Expand := fun g => Some (out, g).

Fixpoint expand (fuel : nat) (s : snippet_library) (str : string) : Expand :=
  match fuel with
  | 0 => fun _ => None
  | S fuel =>
      match StdString.find "<" str with
      | None => expand_ret str
      | Some tag_begin =>
          match StdString.find_from ">" (tag_begin + 1) str with
          | None => expand_ret str
          | Some tag_end =>
              let symbol :=
                StdString.substr tag_begin (tag_end - tag_begin + 1) str in
              fun g =>
                let '(replacement, g) := random_from_category_rng s symbol g in
                match replacement with
                | None =>
                    expand_bind
                      (expand fuel s (StdString.drop (tag_end + 1) str))
                      (fun rest =>
                         expand_ret (StdString.take (tag_end + 1) str +:+ rest))
                      g
                | Some text =>
                    let head := StdString.take tag_begin str in
                    let middle := expand fuel s (translated text) in
                    let tail :=
                      expand fuel s (StdString.drop (tag_end + 1) str) in
                    (if replacement_first then
                       expand_bind middle (fun a =>
                       expand_bind tail (fun b =>
                       expand_ret (head +:+ a +:+ b)))
                     else
                       expand_bind tail (fun b =>
                       expand_bind middle (fun a =>
                       expand_ret (head +:+ a +:+ b))))
                      g
                end
          end
      end
  end.

(** ** The member functions that write to the library *)

Inductive operation : Type :=
| call_load_snippet (jsobj : JsonMembers)
| call_add_snippets_from_json (category : string) (jarr : list JsonValue)
| call_add_snippet_from_json (category : string) (jo : JsonMembers)
| call_clear_snippets
| call_migrate_hash_to_id (old_hash : Z).

(** The library after a call, whether it returned or threw.  The remaining
    member functions only read, so they are functions of the state above. *)
Definition run (o : operation) (s : snippet_library) : snippet_library :=
  match o with
  | call_load_snippet jsobj => (load_snippet jsobj s).2
  | call_add_snippets_from_json category jarr =>
      (add_snippets_from_json category jarr s).2
  | call_add_snippet_from_json category jo =>
      (add_snippet_from_json category jo s).2
  | call_clear_snippets => clear_snippets s
  | call_migrate_hash_to_id old_hash => (migrate_hash_to_id old_hash s).2
  end.

(** The three loading calls. *)
Definition is_load (o : operation) : bool :=
  match o with
  | call_load_snippet _ | call_add_snippets_from_json _ _
  | call_add_snippet_from_json _ _ => true
  | _ => false
  end.

(** States the process can be in: [SNIPPET] after any sequence of calls. *)
Inductive reachable : snippet_library → Prop :=
| reachable_start : reachable SNIPPET
| reachable_call o s : reachable s → reachable (run o s).

End Library.

(** ** Vocabulary of the properties *)

Section Vocabulary.
Context `{C : Collaborators}.

(** Every id listed under a category is a key of [snippets_by_id]. *)
Definition ids_resolve (s : snippet_library) : Prop :=
  ∀ cat it id,
    snippets_by_category s !! cat = Some it → id ∈ ids it →
    is_Some (snippets_by_id s !! id).

(** A migration map that has been built is the one the current
    [snippets_by_id] gives. *)
Definition migration_current (s : snippet_library) : Prop :=
  ∀ m, hash_to_id_migration s = Some m →
       m = build_hash_to_id (snippets_by_id s).

(** Some entry of [snippets_by_id] has the legacy hash [hash]. *)
Definition hash_known (s : snippet_library) (hash : Z) : Prop :=
  ∃ id text, snippets_by_id s !! id = Some text ∧ legacy_hash text = Some hash.

(** [id] answers a migration request for [hash] against the entries of [s]. *)
Definition migrates_to (s : snippet_library) (hash : Z) (id : snippet_id) : Prop :=
  (hash_known s hash →
     ∃ text, snippets_by_id s !! id = Some text ∧ legacy_hash text = Some hash) ∧
  (¬ hash_known s hash → id = NULL_ID).

(** The category is unknown, or holds neither ids nor anonymous texts. *)
Definition unavailable (s : snippet_library) (cat : string) : Prop :=
  match snippets_by_category s !! cat with
  | None => True
  | Some it => ids it = [] ∧ no_id it = []
  end.

(** No tag met by the scan of [expand] has a snippet to offer: the string
    has no ['<'], or no ['>'] after its first ['<'], or its first tag names
    an unavailable category and the same holds of what follows the tag. *)
Inductive no_tag_resolves (s : snippet_library) : string → Prop :=
| no_opening str :
    StdString.lacks "<" str → no_tag_resolves s str
| no_closing head tail :
    StdString.lacks "<" head → StdString.lacks ">" tail →
    no_tag_resolves s (head +:+ String "<" tail)
| tag_verbatim head body rest :
    StdString.lacks "<" head → StdString.lacks ">" body →
    unavailable s (String "<" (body +:+ String ">" EmptyString)) →
    no_tag_resolves s rest →
    no_tag_resolves s (head +:+ String "<" (body +:+ String ">" rest)).

(** The category holds exactly one snippet, identified or anonymous, and
    its translated text is [shown]. *)
Definition single_text (s : snippet_library) (cat shown : string) : Prop :=
  ∃ it, snippets_by_category s !! cat = Some it ∧
    ((ids it = [] ∧ ∃ text, no_id it = [text] ∧ translated text = shown) ∨
     (no_id it = [] ∧ ∃ id text, ids it = [id] ∧
        snippets_by_id s !! id = Some text ∧ translated text = shown)).

(** What the listing of a category is said to be: the sentinel pair when
    asked for and the category has an id, then one pair per id. *)
Definition listing (s : snippet_library) (it : category_snippets)
    (add_null_id : bool) : list (snippet_id * string) :=
  (if add_null_id && negb (empty (ids it))
   then [(NULL_ID, EmptyString)] else []) ++
  map (fun id => (id, translated (get_snippet_ref_by_id s id))) (ids it).

End Vocabulary.

(** ** Drawing an id, and the two members of [snippet_id] *)

(** [random_entry( container )] of [rng.h]: an element of the container,
    chosen with the global random engine. *)
Class RandomEntry `{C : Collaborators} : Type := {
  random_entry : list snippet_id → rng_engine → snippet_id * rng_engine;
  (** the entry drawn from a container that is not empty is one of its
      elements *)
  random_entry_elem : ∀ container g,
    container ≠ [] → (random_entry container g).1 ∈ container;
}.

Section Drawing.
Context `{R : RandomEntry}.

(** [random_id_from_category( cat )]; the [debugmsg] about anonymous texts
    writes to the debug channel only. *)
Definition random_id_from_category (s : snippet_library) (cat : string)
    (g : rng_engine) : snippet_id * rng_engine :=
  match snippets_by_category s !! cat with
  | None => (NULL_ID, g)
  | Some it =>
      if empty (ids it) then (NULL_ID, g)
      else random_entry (ids it) g
  end.

(** [snippet_id::obj()], read from the global library [s]. *)
Definition obj (s : snippet_library) (id : snippet_id) : translation :=
  get_snippet_ref_by_id s id.

(** [snippet_id::is_valid()], read from the global library [s]. *)
Definition is_valid (s : snippet_library) (id : snippet_id) : bool :=
  has_snippet_with_id s id.

(** Each registered id sits in one category, once. *)
Definition ids_partition (s : snippet_library) : Prop :=
  (∀ cat it, snippets_by_category s !! cat = Some it → NoDup (ids it)) ∧
  (∀ cat1 it1 cat2 it2 id,
     snippets_by_category s !! cat1 = Some it1 →
     snippets_by_category s !! cat2 = Some it2 →
     id ∈ ids it1 → id ∈ ids it2 → cat1 = cat2) ∧
  (∀ id, is_Some (snippets_by_id s !! id) →
     ∃ cat it, snippets_by_category s !! cat = Some it ∧ id ∈ ids it).

(** The library [s'] holds all that [s] holds, in the same places. *)
Definition extends (s s' : snippet_library) : Prop :=
  snippets_by_id s ⊆ snippets_by_id s' ∧
  ∀ cat it, snippets_by_category s !! cat = Some it →
    ∃ it', snippets_by_category s' !! cat = Some it' ∧
           ids it `prefix_of` ids it' ∧ no_id it `prefix_of` no_id it'.

End Drawing.

(** ** A concrete set of collaborators

    Translations are plain strings shown as they are, the legacy hash of a
    non-empty text is its length, an effect is the member's string, the
    null id is the string [null], the global engine is a counter, and the
    seeded draw is the seed reduced into the range. *)

Module Plain.

Definition read_string (v : JsonValue) : option string :=
  match v with
  | JsonString str => Some str
  | _ => None
  end.

Definition hash_of (text : string) : option Z :=
  match text with
  | EmptyString => None
  | _ => Some (Z.of_nat (String.length text))
  end.

Definition draw (seed : Z) (a b : nat) : nat :=
  a + Z.to_nat (seed `mod` Z.of_nat (b - a + 1)).

Lemma draw_range seed a b : a ≤ b → a ≤ draw seed a b ≤ b.
Proof.
  intros Hab. unfold draw.
  pose proof (Z.mod_pos_bound seed (Z.of_nat (b - a + 1))). lia.
Qed.

Definition collaborators : Collaborators :=
  {| translation := string;
     empty_translation := EmptyString;
     translated := fun text => text;
     legacy_hash := hash_of;
     read_translation := read_string;
     talk_effect := string;
     read_talk_effect := fun jo member => get_member jo member ≫= read_string;
     NULL_ID := "null";
     rng_engine := Z;
     rng_bits := fun g => (g, (g + 1)%Z);
     mt19937_uniform := draw;
     mt19937_uniform_range := draw_range;
     replacement_first := true |}.

(** The entry [{ "text": "a torn page", "id": "page", "name": "Page",
    "effect_on_examine": "glow" }]. *)
Definition page : JsonMembers :=
  [("text", JsonString "a torn page"); ("id", JsonString "page");
   ("name", JsonString "Page"); ("effect_on_examine", JsonString "glow")].

(** [SNIPPET] after [add_snippet_from_json( "<note>", page )]. *)
Definition with_page : snippet_library (C := collaborators) :=
  run (call_add_snippet_from_json "<note>" page) SNIPPET.

(** The same entry with neither name nor effect. *)
Definition plain_page : JsonMembers :=
  [("text", JsonString "a torn page"); ("id", JsonString "page")].

(** The library after loading [{ "category": "<a>", "text": [ "<b>" ] }]
    and [{ "category": "<b>", "text": "Y" }]. *)
Definition bracketed : snippet_library (C := collaborators) :=
  run (call_load_snippet [("category", JsonString "<b>"); ("text", JsonString "Y")])
    (run (call_load_snippet
            [("category", JsonString "<a>"); ("text", JsonArray [JsonString "<b>"])])
       SNIPPET).

(** The same two entries filed under the names [a] and [b], without the
    brackets. *)
Definition bare : snippet_library (C := collaborators) :=
  run (call_load_snippet [("category", JsonString "b"); ("text", JsonString "Y")])
    (run (call_load_snippet
            [("category", JsonString "a"); ("text", JsonArray [JsonString "<b>"])])
       SNIPPET).

End Plain.

(** The matching way to draw an entry: the engine's counter reduced to a
    position of the container. *)
Module PlainDraw.

Definition pick (container : list snippet_id) (g : Z) : snippet_id * Z :=
  (default EmptyString
     (container !! Z.to_nat (g `mod` Z.of_nat (length container))),
   (g + 1)%Z).

Lemma pick_elem (container : list snippet_id) (g : Z) :
  container ≠ [] → (pick container g).1 ∈ container.
Proof.
  intros Hne. unfold pick. simpl.
  assert (Hlen : 0 < length container) by (destruct container; simpl; [done|lia]).
  pose proof (Z.mod_pos_bound g (Z.of_nat (length container))) as Hbound.
  destruct (lookup_lt_is_Some_2 container
              (Z.to_nat (g `mod` Z.of_nat (length container)))) as [id Hid];
    [lia|].
  rewrite Hid. simpl. by apply list_elem_of_lookup_2 in Hid.
Qed.

Definition entries : RandomEntry (C := Plain.collaborators) :=
  @Build_RandomEntry Plain.collaborators pick pick_elem.

(** The library after the identified entry [page] and the anonymous text
    ["a scrap"] were loaded into ["<note>"]. *)
Definition mixed : snippet_library (C := Plain.collaborators) :=
  run (call_add_snippets_from_json "<note>" [JsonString "a scrap"])
    Plain.with_page.

(** An entry whose effect cannot be read. *)
Definition broken_effect : JsonMembers :=
  [("text", JsonString "a torn page"); ("id", JsonString "page");
   ("effect_on_examine", JsonNull)].

(** The library in which ["<loop>"] holds the single text ["again <loop>"]. *)
Definition looping : snippet_library (C := Plain.collaborators) :=
  run (call_add_snippets_from_json "<loop>" [JsonString "again <loop>"])
    SNIPPET.

End PlainDraw.

(** ** Properties *)

Section Properties.
Context `{C : Collaborators}.

Implicit Types (s : snippet_library) (jo : JsonMembers) (id cat : string).

(** *** Strings *)

Lemma append_cons a (x y : string) : String a x +:+ y = String a (x +:+ y).
Proof. reflexivity. Qed.

Lemma append_empty_l (x : string) : EmptyString +:+ x = x.
Proof. reflexivity. Qed.

Lemma append_empty_r (x : string) : x +:+ EmptyString = x.
Proof. induction x as [|a x IH]; [done|]. by rewrite append_cons, IH. Qed.

Lemma append_assoc (x y z : string) : (x +:+ y) +:+ z = x +:+ y +:+ z.
Proof.
  induction x as [|a x IH]; [done|]. by rewrite !append_cons, IH.
Qed.

Lemma length_append (x y : string) :
  String.length (x +:+ y) = String.length x + String.length y.
Proof.
  induction x as [|a x IH]; [done|]. rewrite append_cons. simpl. by rewrite IH.
Qed.

Lemma find_lacks c (str : string) :
  StdString.lacks c str → StdString.find c str = None.
Proof.
  induction str as [|a str IH]; [done|]. intros [Hne Hrest]. simpl.
  destruct (Ascii.eqb_spec a c) as [->|_]; [done|]. by rewrite IH.
Qed.

Lemma find_append c (head tail : string) :
  StdString.lacks c head →
  StdString.find c (head +:+ String c tail) = Some (String.length head).
Proof.
  induction head as [|a head IH]; intros Hhead.
  - rewrite append_empty_l. simpl. by rewrite Ascii.eqb_refl.
  - destruct Hhead as [Hne Hhead]. rewrite append_cons. simpl.
    destruct (Ascii.eqb_spec a c) as [->|_]; [done|]. by rewrite IH.
Qed.

Lemma drop_append (head tail : string) k :
  StdString.drop (String.length head + k) (head +:+ tail) = StdString.drop k tail.
Proof. induction head as [|a head IH]; [done|]. by rewrite append_cons. Qed.

Lemma take_append (head tail : string) k :
  StdString.take (String.length head + k) (head +:+ tail) =
    head +:+ StdString.take k tail.
Proof.
  induction head as [|a head IH]; [done|]. rewrite append_cons. simpl.
  by rewrite IH.
Qed.

Lemma drop_0 (str : string) : StdString.drop 0 str = str.
Proof. by destruct str. Qed.

Lemma drop_append_length (head tail : string) :
  StdString.drop (String.length head) (head +:+ tail) = tail.
Proof.
  pose proof (drop_append head tail 0) as H.
  by rewrite Nat.add_0_r, drop_0 in H.
Qed.

Lemma take_append_length (head tail : string) :
  StdString.take (String.length head) (head +:+ tail) = head.
Proof.
  pose proof (take_append head tail 0) as H.
  rewrite Nat.add_0_r in H. rewrite H. simpl. apply append_empty_r.
Qed.

(** Where [expand] finds the first tag of a string that starts with a
    piece free of ['<'], then a tag whose body is free of ['>']. *)
Lemma scan_tag (head body rest : string) :
  StdString.lacks "<" head → StdString.lacks ">" body →
  let str := head +:+ String "<" (body +:+ String ">" rest) in
  let tag_begin := String.length head in
  let tag_end := String.length head + 1 + String.length body in
  StdString.find "<" str = Some tag_begin ∧
  StdString.find_from ">" (tag_begin + 1) str = Some tag_end ∧
  StdString.substr tag_begin (tag_end - tag_begin + 1) str =
    String "<" (body +:+ String ">" EmptyString) ∧
  StdString.take tag_begin str = head ∧
  StdString.take (tag_end + 1) str =
    head +:+ String "<" (body +:+ String ">" EmptyString) ∧
  StdString.drop (tag_end + 1) str = rest.
Proof.
  intros Hhead Hbody str tag_begin tag_end. subst str tag_begin tag_end.
  split_and!.
  - by apply find_append.
  - unfold StdString.find_from. rewrite drop_append. simpl.
    rewrite find_append by done. simpl. f_equal; lia.
  - unfold StdString.substr. rewrite drop_append_length.
    replace (String.length head + 1 + String.length body
             - String.length head + 1)
      with (S (String.length body + 1)) by lia.
    simpl. f_equal.
    rewrite take_append. by simpl.
  - apply take_append_length.
  - replace (String.length head + 1 + String.length body + 1)
      with (String.length head + S (String.length body + 1)) by lia.
    rewrite take_append. simpl. do 2 f_equal.
    rewrite take_append. by simpl.
  - replace (String.length head + 1 + String.length body + 1)
      with (String.length head + S (String.length body + 1)) by lia.
    rewrite drop_append. simpl. rewrite drop_append. by simpl.
Qed.

(** *** Tag expansion *)

Lemma expand_S fuel s str :
  expand (S fuel) s str =
  match StdString.find "<" str with
  | None => expand_ret str
  | Some tag_begin =>
      match StdString.find_from ">" (tag_begin + 1) str with
      | None => expand_ret str
      | Some tag_end =>
          let symbol :=
            StdString.substr tag_begin (tag_end - tag_begin + 1) str in
          fun g =>
            let '(replacement, g) := random_from_category_rng s symbol g in
            match replacement with
            | None =>
                expand_bind
                  (expand fuel s (StdString.drop (tag_end + 1) str))
                  (fun rest =>
                     expand_ret (StdString.take (tag_end + 1) str +:+ rest))
                  g
            | Some text =>
                let head := StdString.take tag_begin str in
                let middle := expand fuel s (translated text) in
                let tail :=
                  expand fuel s (StdString.drop (tag_end + 1) str) in
                (if replacement_first then
                   expand_bind middle (fun a =>
                   expand_bind tail (fun b =>
                   expand_ret (head +:+ a +:+ b)))
                 else
                   expand_bind tail (fun b =>
                   expand_bind middle (fun a =>
                   expand_ret (head +:+ a +:+ b))))
                  g
            end
      end
  end.
Proof. reflexivity. Qed.

(** One step of [expand] on a string whose first tag is [<body>]. *)
Lemma expand_first_tag fuel s (head body rest : string) g :
  StdString.lacks "<" head → StdString.lacks ">" body →
  let tag := String "<" (body +:+ String ">" EmptyString) in
  expand (S fuel) s (head +:+ String "<" (body +:+ String ">" rest)) g =
  match random_from_category s tag (rng_bits g).1 with
  | None =>
      expand_bind (expand fuel s rest)
        (fun out => expand_ret ((head +:+ tag) +:+ out)) (rng_bits g).2
  | Some text =>
      (if replacement_first then
         expand_bind (expand fuel s (translated text)) (fun a =>
         expand_bind (expand fuel s rest) (fun b =>
         expand_ret (head +:+ a +:+ b)))
       else
         expand_bind (expand fuel s rest) (fun b =>
         expand_bind (expand fuel s (translated text)) (fun a =>
         expand_ret (head +:+ a +:+ b))))
        (rng_bits g).2
  end.
Proof.
  intros Hhead Hbody tag.
  destruct (scan_tag head body rest Hhead Hbody)
    as (Hbegin & Hend & Hsymbol & Htake & Htake' & Hdrop).
  rewrite expand_S, Hbegin, Hend. cbv zeta.
  rewrite Hsymbol, Htake, Htake', Hdrop.
  unfold random_from_category_rng. destruct (rng_bits g) as [seed g1]. simpl.
  by destruct (random_from_category s _ seed).
Qed.

Lemma random_from_category_unavailable s cat seed :
  unavailable s cat → random_from_category s cat seed = None.
Proof.
  unfold unavailable, random_from_category.
  destruct (snippets_by_category s !! cat) as [it|]; [|done].
  by intros [-> ->].
Qed.

(** C4. [expand] returns its input unchanged when no tag resolves to an
    available snippet: the string has no complete tag, or each tag the scan
    meets names a category without snippets and is left verbatim.  The call
    returns as soon as the recursion bound exceeds the input's length. *)
Theorem expand_identity_without_snippets s (str : string) :
  no_tag_resolves s str →
  ∀ fuel g, String.length str < fuel →
    ∃ g', expand fuel s str g = Some (str, g').
Proof.
  induction 1 as [str Hstr | head tail Hhead Htail
                  | head body rest Hhead Hbody Hcat Hrest IH];
    intros [|fuel] g Hfuel; try lia.
  - rewrite expand_S, find_lacks by done. by eexists.
  - rewrite expand_S, find_append by done.
    unfold StdString.find_from.
    rewrite drop_append. simpl. rewrite find_lacks by done.
    by eexists.
  - rewrite expand_first_tag by done.
    rewrite random_from_category_unavailable by done.
    rewrite !length_append in Hfuel. simpl in Hfuel.
    rewrite length_append in Hfuel. simpl in Hfuel.
    destruct (IH fuel (rng_bits g).2) as [g' Hg']; [lia|].
    unfold expand_bind, expand_ret. rewrite Hg'. eexists. do 2 f_equal.
    rewrite append_assoc, !append_cons. do 2 f_equal.
    by rewrite append_assoc.
Qed.

Lemma expand_without_opening fuel s (str : string) g :
  StdString.lacks "<" str → expand (S fuel) s str g = Some (str, g).
Proof. intros Hstr. by rewrite expand_S, find_lacks. Qed.

(** A category holding a single snippet yields it whatever the seed. *)
Lemma random_from_single_text s cat shown seed :
  single_text s cat shown →
  ∃ text, random_from_category s cat seed = Some text ∧ translated text = shown.
Proof.
  intros (it & Hit & Hone). unfold random_from_category. rewrite Hit.
  pose proof (mt19937_uniform_range seed 0 0 (le_n 0)) as Hrange.
  destruct Hone as [(Hids & text & Hno & Hshown)
                   | (Hno & id & text & Hids & Hid & Hshown)];
    rewrite Hids, Hno; simpl;
    replace (mt19937_uniform seed 0 0) with 0 by lia; simpl.
  - by exists text.
  - exists text. unfold get_snippet_by_id. by rewrite Hid.
Qed.

(** A tag whose category holds a single snippet free of ['<']. *)
Lemma expand_single_plain fuel s (body shown : string) g :
  StdString.lacks ">" body → StdString.lacks "<" shown →
  single_text s (String "<" (body +:+ String ">" EmptyString)) shown →
  expand (S (S fuel)) s (String "<" (body +:+ String ">" EmptyString)) g =
    Some (shown, (rng_bits g).2).
Proof.
  intros Hbody Hshown Hone.
  destruct (random_from_single_text s _ shown (rng_bits g).1 Hone)
    as (text & Hdraw & Htext).
  pose proof (expand_first_tag (S fuel) s EmptyString body EmptyString g
                I Hbody) as Hstep.
  cbv zeta in Hstep. rewrite append_empty_l in Hstep.
  rewrite Hstep, Hdraw, Htext. unfold expand_bind, expand_ret.
  destruct replacement_first;
    rewrite !expand_without_opening by done;
    by rewrite append_empty_l, append_empty_r.
Qed.

(** C3. When the first tag of the input draws a snippet, [expand]
    returns the text before the tag, then the expansion of the drawn text,
    then the expansion of what follows the tag (the two inner calls share
    the random engine, in the order the compiler chose).  The category
    asked for is the tag with its brackets: when category ["<a>"] holds the
    single text ["<b>"] and category ["<b>"] the single text ["Y"],
    [expand( "<a>" )] returns ["Y"]. *)
Theorem expand_replaces_first_tag s :
  (∀ (head body rest : string) fuel g text,
     StdString.lacks "<" head → StdString.lacks ">" body →
     random_from_category s (String "<" (body +:+ String ">" EmptyString))
       (rng_bits g).1 = Some text →
     expand (S fuel) s (head +:+ String "<" (body +:+ String ">" rest)) g =
       (if replacement_first then
          expand_bind (expand fuel s (translated text)) (fun a =>
          expand_bind (expand fuel s rest) (fun b =>
          expand_ret (head +:+ a +:+ b)))
        else
          expand_bind (expand fuel s rest) (fun b =>
          expand_bind (expand fuel s (translated text)) (fun a =>
          expand_ret (head +:+ a +:+ b))))
         (rng_bits g).2) ∧
  (single_text s "<a>" "<b>" → single_text s "<b>" "Y" →
   ∀ fuel g, 3 ≤ fuel → ∃ g', expand fuel s "<a>" g = Some ("Y", g')).
Proof.
  split.
  - intros head body rest fuel g text Hhead Hbody Hdraw.
    rewrite expand_first_tag by done. cbv zeta. by rewrite Hdraw.
  - intros Ha Hb fuel g Hfuel.
    destruct fuel as [|[|[|fuel]]]; try lia.
    destruct (random_from_single_text s _ _ (rng_bits g).1 Ha)
      as (text & Hdraw & Htext).
    pose proof (expand_first_tag (S (S fuel)) s EmptyString "a" EmptyString g
                  I) as Hstep.
    cbv zeta in Hstep. rewrite append_empty_l in Hstep.
    change (String "<" ("a" +:+ String ">" EmptyString)) with "<a>" in Hstep.
    rewrite Hstep, Hdraw, Htext by (simpl; done).
    unfold expand_bind, expand_ret.
    change "<b>" with (String "<" ("b" +:+ String ">" EmptyString)).
    destruct replacement_first.
    + rewrite (expand_single_plain _ s "b" "Y")
        by first [exact Hb | simpl; done].
      rewrite expand_without_opening by done. by eexists.
    + rewrite expand_without_opening by done.
      rewrite (expand_single_plain _ s "b" "Y")
        by first [exact Hb | simpl; done]. by eexists.
Qed.

(** *** Loading *)

(** [add_snippet_from_json] with the exception plumbing spelled out. *)
Lemma add_snippet_from_json_flat category jo s :
  add_snippet_from_json category jo s =
  let s0 := set_hash_to_id_migration None s in
  match get_member jo "text" ≫= read_translation with
  | None => (Throws (reader_error "text"), s0)
  | Some text =>
      if has_member jo "id" then
        match get_member jo "id" with
        | Some (JsonString id) =>
            if decide (id = NULL_ID) then (Throws InvalidId, s0)
            else if decide (is_Some (snippets_by_id s !! id))
            then (Throws DuplicateId, s0)
            else
              let s1 := set_snippet id text (push_id category id s0) in
              let after_effect :=
                if has_member jo "effect_on_examine" then
                  match read_talk_effect jo "effect_on_examine" with
                  | Some effect => (Returns tt, set_EOC id effect s1)
                  | None => (Throws (reader_error "effect_on_examine"), s1)
                  end
                else (Returns tt, s1) in
              match after_effect with
              | (Returns _, s2) =>
                  match get_member jo "name" with
                  | None => (Returns tt, set_name id empty_translation s2)
                  | Some v =>
                      match read_translation v with
                      | Some name => (Returns tt, set_name id name s2)
                      | None => (Throws (reader_error "name"), s2)
                      end
                  end
              | (Throws e, s2) => (Throws e, s2)
              end
        | _ => (Throws (reader_error "id"), s0)
        end
      else (Returns tt, push_no_id category text s0)
  end.
Proof.
  unfold add_snippet_from_json, mandatory, optional, read_id, load_bind,
    load_modify, load_read, load_ret, load_throw, load_get.
  cbv zeta.
  repeat (case_match; simplify_eq/=; try done).
Qed.

Ltac add_cases :=
  rewrite add_snippet_from_json_flat; cbv zeta;
  repeat (case_match; simplify_eq/=).

(** Every loading call leaves [hash_to_id_migration] reset. *)
Lemma add_snippet_from_json_invalidates category jo s :
  hash_to_id_migration (add_snippet_from_json category jo s).2 = None.
Proof. by add_cases. Qed.

Lemma add_array_entry_invalidates category entry s :
  hash_to_id_migration s = None →
  hash_to_id_migration (add_array_entry category entry s).2 = None.
Proof.
  intros Hs. unfold add_array_entry.
  destruct entry; simpl; try done.
  - unfold load_bind, load_read, load_modify.
    by destruct (read_translation _).
  - apply add_snippet_from_json_invalidates.
Qed.

Lemma for_each_entry_invalidates category jarr s :
  hash_to_id_migration s = None →
  hash_to_id_migration (for_each_entry category jarr s).2 = None.
Proof.
  revert s. induction jarr as [|entry jarr IH]; intros s Hs; [done|].
  simpl. unfold load_bind.
  pose proof (add_array_entry_invalidates category entry s Hs) as Hentry.
  destruct (add_array_entry category entry s) as [[[]|e] s1]; [|done].
  by apply IH.
Qed.

Lemma add_snippets_from_json_invalidates category jarr s :
  hash_to_id_migration (add_snippets_from_json category jarr s).2 = None.
Proof.
  unfold add_snippets_from_json, load_bind, load_modify.
  by apply for_each_entry_invalidates.
Qed.

Lemma load_snippet_flat jsobj s :
  load_snippet jsobj s =
  let s0 := set_hash_to_id_migration None s in
  match get_member jsobj "category" with
  | Some (JsonString category) =>
      if has_array jsobj "text"
      then add_snippets_from_json category (get_array jsobj "text") s0
      else add_snippet_from_json category jsobj s0
  | _ => (Throws (reader_error "category"), s0)
  end.
Proof.
  unfold load_snippet, load_bind, load_modify, get_string, load_ret, load_throw.
  destruct (get_member jsobj "category") as [[]|]; try done.
  simpl. by destruct (has_array jsobj "text").
Qed.

Lemma load_snippet_invalidates jsobj s :
  hash_to_id_migration (load_snippet jsobj s).2 = None.
Proof.
  rewrite load_snippet_flat. cbv zeta.
  destruct (get_member jsobj "category") as [[]|]; try done.
  destruct (has_array jsobj "text").
  - apply add_snippets_from_json_invalidates.
  - apply add_snippet_from_json_invalidates.
Qed.

Lemma load_invalidates o s :
  is_load o = true → hash_to_id_migration (run o s) = None.
Proof.
  destruct o; simpl; try done; intros _.
  - apply load_snippet_invalidates.
  - apply add_snippets_from_json_invalidates.
  - apply add_snippet_from_json_invalidates.
Qed.

(** Properties of the two indices that survive the two ways an entry is
    stored survive every loading call, returned or thrown. *)
Section Preservation.
Variable P : snippet_library → Prop.
Hypothesis P_indices : ∀ s s',
  snippets_by_category s' = snippets_by_category s →
  snippets_by_id s' = snippets_by_id s → P s → P s'.
Hypothesis P_no_id : ∀ s category text, P s → P (push_no_id category text s).
Hypothesis P_id : ∀ s category id text,
  id ≠ NULL_ID → snippets_by_id s !! id = None →
  P s → P (set_snippet id text (push_id category id s)).

Lemma add_snippet_from_json_preserves category jo s :
  P s → P (add_snippet_from_json category jo s).2.
Proof using P_indices P_no_id P_id.
  intros Hs. add_cases;
    try (by apply (P_indices s));
    try (by eapply (P_indices (push_no_id category _ s));
           [..|apply P_no_id]);
    match goal with
    | Hnone : ¬ is_Some (snippets_by_id s !! ?id) |- _ =>
        pose proof (proj2 (eq_None_not_Some _) Hnone);
        by eapply (P_indices (set_snippet id _ (push_id category id s)));
          [..|apply P_id]
    end.
Qed.

Lemma add_array_entry_preserves category entry s :
  P s → P (add_array_entry category entry s).2.
Proof using P_indices P_no_id P_id.
  intros Hs. unfold add_array_entry.
  destruct entry; simpl; try done.
  - unfold load_bind, load_read, load_modify.
    destruct (read_translation _); simpl; [by apply P_no_id|done].
  - by apply add_snippet_from_json_preserves.
Qed.

Lemma for_each_entry_preserves category jarr s :
  P s → P (for_each_entry category jarr s).2.
Proof using P_indices P_no_id P_id.
  revert s. induction jarr as [|entry jarr IH]; intros s Hs; [done|].
  simpl. unfold load_bind.
  pose proof (add_array_entry_preserves category entry s Hs) as Hentry.
  destruct (add_array_entry category entry s) as [[[]|e] s1]; [|done].
  by apply IH.
Qed.

Lemma load_preserves o s : is_load o = true → P s → P (run o s).
Proof using P_indices P_no_id P_id.
  assert (Hreset : ∀ s, P s → P (set_hash_to_id_migration None s))
    by (intros s0; by apply P_indices).
  destruct o; simpl; try done; intros _ Hs.
  - rewrite load_snippet_flat. cbv zeta.
    destruct (get_member jsobj "category") as [[]|]; try by apply Hreset.
    destruct (has_array jsobj "text").
    + unfold add_snippets_from_json, load_bind, load_modify.
      by apply for_each_entry_preserves, Hreset, Hreset.
    + by apply add_snippet_from_json_preserves, Hreset.
  - unfold add_snippets_from_json, load_bind, load_modify.
    by apply for_each_entry_preserves, Hreset.
  - by apply add_snippet_from_json_preserves.
Qed.
End Preservation.

(** *** The invariants of the library *)

Lemma migrate_hash_to_id_indices old_hash s :
  let s' := (migrate_hash_to_id old_hash s).2 in
  snippets_by_category s' = snippets_by_category s ∧
  snippets_by_id s' = snippets_by_id s ∧
  EOC_by_id s' = EOC_by_id s ∧ name_by_id s' = name_by_id s.
Proof.
  unfold migrate_hash_to_id.
  destruct (hash_to_id_migration s) as [m|] eqn:Hm; simpl.
  - rewrite Hm. simpl. by destruct (m !! old_hash).
  - by destruct (build_hash_to_id (snippets_by_id s) !! old_hash).
Qed.

Lemma ids_resolve_indices s s' :
  snippets_by_category s' = snippets_by_category s →
  snippets_by_id s' = snippets_by_id s → ids_resolve s → ids_resolve s'.
Proof. unfold ids_resolve. intros -> ->. done. Qed.

Lemma ids_resolve_push_no_id s category text :
  ids_resolve s → ids_resolve (push_no_id category text s).
Proof.
  intros Hs cat it id. simpl. unfold category_or_default.
  destruct (decide (category = cat)) as [->|Hne].
  - rewrite lookup_insert_eq. intros [= <-]. simpl.
    destruct (snippets_by_category s !! cat) as [old|] eqn:Hold; simpl.
    + by apply (Hs cat old).
    + by intros ?%elem_of_nil.
  - rewrite lookup_insert_ne by done. apply Hs.
Qed.

Lemma ids_resolve_push_id s category id text :
  ids_resolve s → ids_resolve (set_snippet id text (push_id category id s)).
Proof.
  intros Hs cat it id'. simpl. unfold category_or_default.
  assert (Hkeep : ∀ old, snippets_by_category s !! cat = Some old →
            id' ∈ ids old → is_Some (<[id:=text]> (snippets_by_id s) !! id')).
  { intros old Hold Hin. rewrite lookup_insert.
    case_decide; [done|]. by apply (Hs cat old). }
  destruct (decide (category = cat)) as [->|Hne].
  - rewrite lookup_insert_eq. intros [= <-]. simpl.
    intros [Hin | ->%list_elem_of_singleton]%elem_of_app.
    + destruct (snippets_by_category s !! cat) as [old|] eqn:Hold; simpl in *.
      * by apply (Hkeep old).
      * by apply elem_of_nil in Hin.
    + by rewrite lookup_insert_eq.
  - rewrite lookup_insert_ne by done. apply Hkeep.
Qed.

Lemma ids_resolve_start : ids_resolve SNIPPET.
Proof. intros cat it id. simpl. by rewrite lookup_empty. Qed.

Lemma ids_resolve_run o s : ids_resolve s → ids_resolve (run o s).
Proof.
  intros Hs. destruct (is_load o) eqn:Hload.
  - apply load_preserves; try done.
    + apply ids_resolve_indices.
    + apply ids_resolve_push_no_id.
    + intros. by apply ids_resolve_push_id.
  - destruct o; try discriminate Hload; simpl.
    + intros cat it id. unfold clear_snippets. simpl. by rewrite lookup_empty.
    + destruct (migrate_hash_to_id_indices old_hash s) as (Hcat & Hid & _).
      by apply (ids_resolve_indices s).
Qed.

Lemma reachable_ids_resolve s : reachable s → ids_resolve s.
Proof.
  induction 1; [apply ids_resolve_start | by apply ids_resolve_run].
Qed.

(** C8. Every id in a category's id sequence is a key of [snippets_by_id]:
    this holds of the fresh library and is kept by every call that writes
    to it (the three loading calls, returned or thrown, [clear_snippets],
    and [migrate_hash_to_id]; the other member functions read only).  Hence
    looking up an id taken from a category sequence is never absent. *)
Theorem ids_resolve_preserved o s :
  ids_resolve s →
  ids_resolve SNIPPET ∧
  ids_resolve (run o s) ∧
  ∀ cat it index id,
    snippets_by_category (run o s) !! cat = Some it →
    ids it !! index = Some id →
    get_snippet_by_id (run o s) id ≠ None.
Proof.
  intros Hs. pose proof (ids_resolve_run o s Hs) as Hrun.
  split_and!; [apply ids_resolve_start | done |].
  intros cat it index id Hit Hid. unfold get_snippet_by_id.
  apply not_eq_None_Some, (Hrun cat it id Hit).
  by apply list_elem_of_lookup_2 in Hid.
Qed.

Lemma null_id_absent_run o s :
  snippets_by_id s !! NULL_ID = None → snippets_by_id (run o s) !! NULL_ID = None.
Proof.
  intros Hs. destruct (is_load o) eqn:Hload.
  - apply (load_preserves (fun s => snippets_by_id s !! NULL_ID = None));
      try done.
    + by intros s1 s2 _ ->.
    + intros s1 category id text Hid _ Hs1. simpl.
      by rewrite lookup_insert_ne.
  - destruct o; try discriminate Hload; simpl; [done|].
    destruct (migrate_hash_to_id_indices old_hash s) as (_ & Hid & _).
    simpl in Hid. by rewrite Hid.
Qed.

Lemma reachable_null_id_absent s :
  reachable s → snippets_by_id s !! NULL_ID = None.
Proof. induction 1; [done | by apply null_id_absent_run]. Qed.

Lemma migration_current_run o s :
  migration_current s → migration_current (run o s).
Proof.
  intros Hs. destruct (is_load o) eqn:Hload.
  - intros m. by rewrite load_invalidates.
  - destruct o; try discriminate Hload; simpl.
    + by intros m.
    + unfold migrate_hash_to_id.
      destruct (hash_to_id_migration s) as [m|] eqn:Hm; simpl.
      * rewrite Hm. simpl. by destruct (m !! old_hash).
      * destruct (build_hash_to_id (snippets_by_id s) !! old_hash);
          simpl; by intros m [= <-].
Qed.

Lemma reachable_migration_current s : reachable s → migration_current s.
Proof. induction 1; [by intros m | by apply migration_current_run]. Qed.

(** *** Rejected entries *)

Lemma has_member_Some jo name v :
  get_member jo name = Some v → has_member jo name = true.
Proof. intros H. unfold has_member. rewrite H. by apply bool_decide_eq_true. Qed.

(** C10. When [add_snippet_from_json] throws for a null or a duplicate id,
    the four maps are as they were before the call, both checks coming
    before the first insertion, and [hash_to_id_migration] has been reset. *)
Theorem add_snippet_from_json_rejects_cleanly category jo s :
  (add_snippet_from_json category jo s).1 = Throws InvalidId ∨
  (add_snippet_from_json category jo s).1 = Throws DuplicateId →
  let s' := (add_snippet_from_json category jo s).2 in
  snippets_by_category s' = snippets_by_category s ∧
  snippets_by_id s' = snippets_by_id s ∧
  EOC_by_id s' = EOC_by_id s ∧
  name_by_id s' = name_by_id s ∧
  hash_to_id_migration s' = None.
Proof.
  intros Hthrown. cbv zeta. revert Hthrown.
  add_cases; intros [?|?]; by simplify_eq.
Qed.

(** C7. For an entry whose [text] reads and whose [id] member is a string:
    a null id makes [add_snippet_from_json] throw the null-id error, an id
    already in [snippets_by_id] makes it throw the duplicate-id error, and
    an entry that has been loaded once, which cannot be loaded a second
    time on top of itself, loads again after [clear_snippets]; after
    [clear_snippets] no entry is rejected as a duplicate. *)
Theorem add_snippet_from_json_id_checks category jo s text id :
  reachable s →
  get_member jo "text" ≫= read_translation = Some text →
  get_member jo "id" = Some (JsonString id) →
  (id = NULL_ID →
     (add_snippet_from_json category jo s).1 = Throws InvalidId) ∧
  (is_Some (snippets_by_id s !! id) →
     (add_snippet_from_json category jo s).1 = Throws DuplicateId) ∧
  ((add_snippet_from_json category jo s).1 = Returns tt →
     let loaded := (add_snippet_from_json category jo s).2 in
     snippets_by_id loaded !! id = Some text ∧
     (add_snippet_from_json category jo loaded).1 = Throws DuplicateId ∧
     ∀ category' later,
       (add_snippet_from_json category' jo (clear_snippets later)).1
         = Returns tt) ∧
  (∀ category' jo' later,
     (add_snippet_from_json category' jo' (clear_snippets later)).1
       ≠ Throws DuplicateId).
Proof.
  intros Hs Htext Hid.
  pose proof (has_member_Some _ _ _ Hid) as Hhas.
  pose proof (reachable_null_id_absent s Hs) as Hnull.
  rewrite !add_snippet_from_json_flat. cbv zeta.
  rewrite Htext, Hhas, Hid.
  split_and!.
  - intros ->. by rewrite decide_True.
  - intros Hdup. rewrite decide_False.
    + by rewrite decide_True.
    + intros ->. rewrite Hnull in Hdup. by destruct Hdup.
  - intros Hret. revert Hret.
    destruct (decide (id = NULL_ID)) as [|Hvalid]; [done|].
    destruct (decide (is_Some (snippets_by_id s !! id))) as [|Hnew]; [done|].
    intros Hret. split_and!.
    + revert Hret. repeat (case_match; simplify_eq/=); intros; try done;
        by rewrite lookup_insert_eq.
    + rewrite add_snippet_from_json_flat. cbv zeta.
      rewrite Htext, Hhas, Hid, decide_False by done.
      rewrite decide_True; [done|].
      revert Hret. repeat (case_match; simplify_eq/=); intros; try done;
        by rewrite lookup_insert_eq.
    + intros category' later.
      rewrite add_snippet_from_json_flat. cbv zeta.
      rewrite Htext, Hhas, Hid, decide_False by done.
      rewrite decide_False by (simpl; rewrite lookup_empty; by intros []).
      revert Hret. by repeat (case_match; simplify_eq/=).
  - intros category' jo' later.
    rewrite add_snippet_from_json_flat. cbv zeta.
    repeat (case_match; simplify_eq/=); try done.
Qed.

(** *** Hash migration *)

Lemma emplace_hash_lookup m id text hash :
  emplace_hash m (id, text) !! hash =
    match m !! hash with
    | Some old => Some old
    | None => if decide (legacy_hash text = Some hash) then Some id else None
    end.
Proof.
  unfold emplace_hash. simpl.
  destruct (legacy_hash text) as [h|] eqn:Hh.
  - destruct (decide (h = hash)) as [->|Hne].
    + destruct (m !! hash) eqn:Hm; [done|].
      rewrite lookup_insert_eq. by rewrite decide_True.
    + destruct (m !! h) eqn:Hm.
      * destruct (m !! hash); [done|]. rewrite decide_False; [done|congruence].
      * rewrite lookup_insert_ne by done.
        destruct (m !! hash); [done|]. rewrite decide_False; [done|congruence].
  - destruct (m !! hash); [done|]. by rewrite decide_False.
Qed.

(** What the loop leaves under a key: what was there, else the id of an
    entry with that hash, else nothing when no entry has it. *)
Lemma foldl_emplace_hash (entries : list (string * translation)) m hash :
  match foldl emplace_hash m entries !! hash with
  | Some id =>
      m !! hash = Some id ∨
      (m !! hash = None ∧
       ∃ text, (id, text) ∈ entries ∧ legacy_hash text = Some hash)
  | None =>
      m !! hash = None ∧
      ∀ id text, (id, text) ∈ entries → legacy_hash text ≠ Some hash
  end.
Proof.
  revert m. induction entries as [|[id0 text0] entries IH]; intros m; simpl.
  - destruct (m !! hash); [by left|]. split; [done|]. by intros ?? ?%elem_of_nil.
  - specialize (IH (emplace_hash m (id0, text0))).
    rewrite emplace_hash_lookup in IH.
    destruct (foldl emplace_hash _ entries !! hash) as [id|].
    + destruct (m !! hash) as [old|].
      * destruct IH as [?|[? _]]; [by left|done].
      * right. split; [done|].
        destruct (decide (legacy_hash text0 = Some hash)) as [Hhash|Hhash].
        -- destruct IH as [[= <-]|[? _]]; [|done].
           exists text0. split; [left|done].
        -- destruct IH as [?|[_ (text & Hin & Htext)]]; [done|].
           exists text. split; [by right|done].
    + destruct IH as [Hnone Hrest].
      destruct (m !! hash); [done|].
      destruct (decide (legacy_hash text0 = Some hash)); [done|].
      split; [done|]. intros id text [[= -> ->]|Hin]%elem_of_cons; [done|].
      by apply (Hrest id).
Qed.

Lemma build_hash_to_id_lookup (by_id : gmap string translation) hash :
  match build_hash_to_id by_id !! hash with
  | Some id => ∃ text, by_id !! id = Some text ∧ legacy_hash text = Some hash
  | None => ∀ id text, by_id !! id = Some text → legacy_hash text ≠ Some hash
  end.
Proof.
  unfold build_hash_to_id.
  pose proof (foldl_emplace_hash (map_to_list by_id) ∅ hash) as Hfold.
  destruct (foldl emplace_hash ∅ (map_to_list by_id) !! hash) as [id|].
  - destruct Hfold as [Hempty|[_ (text & Hin & Htext)]].
    + by rewrite lookup_empty in Hempty.
    + exists text. split; [|done]. by apply elem_of_map_to_list.
  - destruct Hfold as [_ Hnone]. intros id text Hid.
    by apply (Hnone id), elem_of_map_to_list.
Qed.

(** The value [migrate_hash_to_id] returns, read off the map it consults. *)
Lemma migrate_hash_to_id_answer old_hash s :
  migration_current s →
  (migrate_hash_to_id old_hash s).1 =
    default NULL_ID (build_hash_to_id (snippets_by_id s) !! old_hash).
Proof.
  intros Hs. unfold migrate_hash_to_id.
  destruct (hash_to_id_migration s) as [m|] eqn:Hm; simpl.
  - rewrite Hm. simpl. rewrite <- (Hs m Hm). by destruct (m !! old_hash).
  - by destruct (build_hash_to_id (snippets_by_id s) !! old_hash).
Qed.

Lemma migrate_hash_to_id_migrates s old_hash :
  migration_current s →
  migrates_to s old_hash (migrate_hash_to_id old_hash s).1.
Proof.
  intros Hs. rewrite migrate_hash_to_id_answer by done.
  pose proof (build_hash_to_id_lookup (snippets_by_id s) old_hash) as Hbuilt.
  destruct (build_hash_to_id (snippets_by_id s) !! old_hash) as [id|]; simpl.
  - split; [by intros _|]. intros Hunknown. destruct Hunknown.
    destruct Hbuilt as (text & ? & ?). by exists id, text.
  - split; [|done]. intros (id & text & Hid & Hhash).
    by destruct (Hbuilt id text).
Qed.

Lemma migrate_hash_to_id_built old_hash s :
  is_Some (hash_to_id_migration (migrate_hash_to_id old_hash s).2).
Proof.
  unfold migrate_hash_to_id.
  destruct (hash_to_id_migration s) as [m|] eqn:Hm; simpl.
  - rewrite Hm. simpl. destruct (m !! old_hash); simpl; by rewrite Hm.
  - by destruct (build_hash_to_id (snippets_by_id s) !! old_hash).
Qed.

Lemma migrate_hash_to_id_reuses old_hash s :
  is_Some (hash_to_id_migration s) → (migrate_hash_to_id old_hash s).2 = s.
Proof.
  intros [m Hm]. unfold migrate_hash_to_id. rewrite Hm. simpl.
  rewrite Hm. simpl. by destruct (m !! old_hash).
Qed.

(** C2. In every state the library can reach, [migrate_hash_to_id( h )]
    returns an id whose text in [snippets_by_id] has legacy hash [h] (the
    one such id when there is only one; texts without a legacy hash never
    enter the map), and the null id when no entry has that hash.  Each
    loading call resets [hash_to_id_migration], so the call made after a
    load answers from the entries present then.  The map is built by the
    first call only: once a call has returned, further calls leave the
    library, map included, exactly as it is. *)
Theorem migrate_hash_to_id_current s old_hash :
  reachable s →
  let answer := migrate_hash_to_id old_hash s in
  migrates_to s old_hash answer.1 ∧
  (∀ id text,
     snippets_by_id s !! id = Some text → legacy_hash text = Some old_hash →
     (∀ id' text', snippets_by_id s !! id' = Some text' →
                   legacy_hash text' = Some old_hash → id' = id) →
     answer.1 = id) ∧
  (∀ o, is_load o = true →
     hash_to_id_migration (run o s) = None ∧
     migrates_to (run o s) old_hash
       (migrate_hash_to_id old_hash (run o s)).1) ∧
  is_Some (hash_to_id_migration answer.2) ∧
  (∀ h, (migrate_hash_to_id h answer.2).2 = answer.2).
Proof.
  intros Hs. cbv zeta.
  pose proof (reachable_migration_current s Hs) as Hcurrent.
  pose proof (migrate_hash_to_id_migrates s old_hash Hcurrent) as Hanswer.
  split_and!.
  - done.
  - intros id text Hid Hhash Hunique.
    destruct Hanswer as [Hknown _].
    destruct Hknown as (text' & Hid' & Hhash'); [by exists id, text|].
    by apply (Hunique _ text').
  - intros o Hload. split; [by apply load_invalidates|].
    apply migrate_hash_to_id_migrates, migration_current_run, Hcurrent.
  - apply migrate_hash_to_id_built.
  - intros h. apply migrate_hash_to_id_reuses, migrate_hash_to_id_built.
Qed.

(** *** Random selection *)

(** C5. [random_from_category( cat, seed )] is a function of the seed and
    of the category's contents alone: on two libraries whose bucket for
    [cat] is the same and whose [snippets_by_id] agree on the ids of that
    bucket, the same seed selects the same result; in particular, repeating
    the call on one library repeats the result. *)
Theorem random_from_category_deterministic s1 s2 cat seed :
  snippets_by_category s1 !! cat = snippets_by_category s2 !! cat →
  (∀ it id, snippets_by_category s1 !! cat = Some it → id ∈ ids it →
            snippets_by_id s1 !! id = snippets_by_id s2 !! id) →
  random_from_category s1 cat seed = random_from_category s2 cat seed.
Proof.
  intros Hcat Hids. unfold random_from_category. rewrite <- Hcat.
  destruct (snippets_by_category s1 !! cat) as [it|]; [|done].
  destruct (empty (ids it) && empty (no_id it)); [done|]. cbv zeta.
  case_decide; [|done].
  destruct (ids it !! _) as [id|] eqn:Hid; [|done]. simpl.
  unfold get_snippet_by_id. apply (Hids it); [done|].
  by apply list_elem_of_lookup_2 in Hid.
Qed.

Lemma empty_true {A} (v : list A) : empty v = true ↔ v = [].
Proof. by destruct v. Qed.

(** C6. In a reachable library, [random_from_category] returns nothing
    exactly when the category is unknown or holds neither ids nor anonymous
    texts.  Otherwise the index drawn lies below [n], the number of ids
    plus the number of anonymous texts; below the number of ids it selects
    the id at that position, looked up in [snippets_by_id], and from there
    on the anonymous text at the position counted from the end of the ids. *)
Theorem random_from_category_selects s cat seed :
  reachable s →
  (random_from_category s cat seed = None ↔ unavailable s cat) ∧
  ∀ it, snippets_by_category s !! cat = Some it →
    ¬ (ids it = [] ∧ no_id it = []) →
    let n := length (ids it) + length (no_id it) in
    let index := mt19937_uniform seed 0 (n - 1) in
    index < n ∧
    (index < length (ids it) →
       ∃ id text, ids it !! index = Some id ∧
                  snippets_by_id s !! id = Some text ∧
                  random_from_category s cat seed = Some text) ∧
    (length (ids it) ≤ index →
       ∃ text, no_id it !! (index - length (ids it)) = Some text ∧
               random_from_category s cat seed = Some text).
Proof.
  intros Hs. pose proof (reachable_ids_resolve s Hs) as Hresolve.
  assert (Hsome : ∀ it, snippets_by_category s !! cat = Some it →
    ¬ (ids it = [] ∧ no_id it = []) →
    let n := length (ids it) + length (no_id it) in
    let index := mt19937_uniform seed 0 (n - 1) in
    index < n ∧
    (index < length (ids it) →
       ∃ id text, ids it !! index = Some id ∧
                  snippets_by_id s !! id = Some text ∧
                  random_from_category s cat seed = Some text) ∧
    (length (ids it) ≤ index →
       ∃ text, no_id it !! (index - length (ids it)) = Some text ∧
               random_from_category s cat seed = Some text)).
  { intros it Hit Hnonempty n index.
    assert (Hn : 0 < n).
    { subst n. destruct (ids it), (no_id it); simpl; try lia.
      by destruct Hnonempty. }
    pose proof (mt19937_uniform_range seed 0 (n - 1) (Nat.le_0_l _)) as Hrange.
    fold index in Hrange.
    assert (Hempty : empty (ids it) && empty (no_id it) = false).
    { apply not_true_is_false. intros [H1 H2]%andb_true_iff.
      apply Hnonempty. by rewrite <- !empty_true. }
    unfold random_from_category. rewrite Hit, Hempty. cbv zeta.
    fold n. fold index.
    split_and!; [lia| |].
    - intros Hlt. rewrite decide_True by done.
      destruct (lookup_lt_is_Some_2 (ids it) index Hlt) as [id Hid].
      destruct (Hresolve cat it id Hit) as [text Htext].
      { by apply list_elem_of_lookup_2 in Hid. }
      exists id, text. rewrite Hid. simpl. by unfold get_snippet_by_id.
    - intros Hge. rewrite decide_False by lia.
      destruct (lookup_lt_is_Some_2 (no_id it) (index - length (ids it)))
        as [text Htext]; [subst n; lia|].
      by exists text. }
  split; [|done]. split.
  - intros Hnone. unfold unavailable.
    destruct (snippets_by_category s !! cat) as [it|] eqn:Hit; [|done].
    destruct (decide (ids it = [] ∧ no_id it = [])) as [|Hnonempty]; [done|].
    destruct (Hsome it eq_refl Hnonempty) as (_ & Hid & Hanon).
    cbv zeta in Hid, Hanon.
    destruct (decide (mt19937_uniform seed 0
                (length (ids it) + length (no_id it) - 1) < length (ids it)))
      as [Hlt|Hge].
    + destruct (Hid Hlt) as (? & ? & _ & _ & Hdrawn). congruence.
    + destruct Hanon as (? & _ & Hdrawn); [lia|congruence].
  - apply random_from_category_unavailable.
Qed.

(** *** Listing a category *)

Lemma foldl_emplace_back {A B} (f : A → B) (v : list A) (ret : list B) :
  foldl (fun ret a => ret ++ [f a]) ret v = ret ++ map f v.
Proof.
  revert ret. induction v as [|a v IH]; intros ret; simpl.
  - by rewrite app_nil_r.
  - by rewrite IH, <- app_assoc.
Qed.

Lemma get_snippets_by_category_known s cat it add_null_id :
  snippets_by_category s !! cat = Some it →
  get_snippets_by_category s cat add_null_id = listing s it add_null_id.
Proof.
  intros Hit. unfold get_snippets_by_category, has_category. rewrite Hit.
  rewrite bool_decide_eq_true_2 by done. simpl.
  rewrite foldl_emplace_back. unfold listing.
  by destruct (add_null_id && negb (empty (ids it))).
Qed.

(** C9. [get_snippets_by_category] returns nothing for an unknown
    category.  For a known one it returns the pair of the null id and the
    empty string, when [add_null_id] is set and the category has an id,
    followed by one pair per id of the category, in the order of its id
    sequence, each with the translated text [snippets_by_id] holds for the
    id; the anonymous texts of the category contribute nothing. *)
Theorem get_snippets_by_category_listing s cat add_null_id :
  reachable s →
  match snippets_by_category s !! cat with
  | None => get_snippets_by_category s cat add_null_id = []
  | Some it =>
      get_snippets_by_category s cat add_null_id = listing s it add_null_id ∧
      (get_snippets_by_category s cat add_null_id).*1 =
        (if add_null_id && negb (empty (ids it)) then [NULL_ID] else [])
        ++ ids it ∧
      Forall (fun id => ∃ text, snippets_by_id s !! id = Some text ∧
                                get_snippet_ref_by_id s id = text) (ids it)
  end.
Proof.
  intros Hs. pose proof (reachable_ids_resolve s Hs) as Hresolve.
  destruct (snippets_by_category s !! cat) as [it|] eqn:Hit.
  - rewrite (get_snippets_by_category_known s cat it) by done.
    split_and!; [done| |].
    + unfold listing. rewrite fmap_app.
      f_equal; [by destruct (add_null_id && negb (empty (ids it)))|].
      rewrite <- list_fmap_compose. apply list_fmap_id.
    + apply Forall_forall. intros id Hid.
      destruct (Hresolve cat it id Hit Hid) as [text Htext].
      exists text. split; [done|]. unfold get_snippet_ref_by_id.
      by rewrite Htext.
  - unfold get_snippets_by_category, has_category. rewrite Hit.
    by rewrite bool_decide_eq_false_2 by (by intros []).
Qed.

End Properties.

(** ** The properties at concrete libraries *)

(** C1. [clear_snippets] empties [snippets_by_category] and
    [snippets_by_id] and resets [hash_to_id_migration], but the name and the
    effect stored for an id loaded before the call are still there after
    it; when the id is then loaded again from an entry without an effect,
    the effect of the earlier load is still returned for it. *)
Theorem clear_snippets_keeps_names_and_effects :
  let cleared := clear_snippets Plain.with_page in
  let reloaded :=
    add_snippet_from_json "<note>" Plain.plain_page cleared in
  snippets_by_category cleared = ∅ ∧
  snippets_by_id cleared = ∅ ∧
  hash_to_id_migration cleared = None ∧
  get_snippet_by_id cleared "page" = None ∧
  get_name_by_id cleared "page" = Some "Page" ∧
  get_EOC_by_id cleared "page" = Some "glow" ∧
  reloaded.1 = Returns tt ∧
  get_EOC_by_id reloaded.2 "page" = Some "glow".
Proof. cbv zeta. split_and!; vm_compute; reflexivity. Qed.

Lemma migrate_hash_to_id_current_witness :
  reachable Plain.with_page ∧
  migrates_to Plain.with_page 11
    (migrate_hash_to_id (C := Plain.collaborators) 11 Plain.with_page).1.
Proof.
  split.
  - apply reachable_call, reachable_start.
  - apply (migrate_hash_to_id_current Plain.with_page 11).
    apply reachable_call, reachable_start.
Defined.

Lemma expand_replaces_first_tag_witness :
  expand (C := Plain.collaborators) 3 Plain.bracketed "x<a>z" 0%Z
    = expand_bind (expand 2 Plain.bracketed "<b>") (fun a =>
      expand_bind (expand 2 Plain.bracketed "z") (fun b =>
      expand_ret ("x" +:+ a +:+ b))) 1%Z ∧
  ∃ g', expand (C := Plain.collaborators) 3 Plain.bracketed "<a>" 0%Z
        = Some ("Y", g').
Proof.
  destruct (expand_replaces_first_tag (C := Plain.collaborators)
              Plain.bracketed) as [Hgeneral Hnested].
  split.
  - assert (Hhead : StdString.lacks "<" "x") by (repeat split; discriminate).
    assert (Hbody : StdString.lacks ">" "a") by (repeat split; discriminate).
    assert (Hdraw : random_from_category (C := Plain.collaborators)
                      Plain.bracketed
                      (String "<" ("a" +:+ String ">" EmptyString))
                      (rng_bits (Collaborators := Plain.collaborators) 0%Z).1
                    = Some "<b>") by (vm_compute; reflexivity).
    exact (Hgeneral "x" "a" "z" 2 0%Z "<b>" Hhead Hbody Hdraw).
  - apply Hnested.
    + eexists. split; [vm_compute; reflexivity|].
      left. split; [reflexivity|]. eexists. split; reflexivity.
    + eexists. split; [vm_compute; reflexivity|].
      left. split; [reflexivity|]. eexists. split; reflexivity.
    + apply le_n.
Defined.

(** With the categories named [a] and [b], [expand( "<a>" )] asks for the
    category ["<a>"], which does not exist, and gives the tag back. *)
Lemma expand_bare_category_names :
  single_text Plain.bare "a" "<b>" ∧
  single_text Plain.bare "b" "Y" ∧
  expand (C := Plain.collaborators) 3 Plain.bare "<a>" 0%Z
    = Some ("<a>", 1%Z) ∧
  ∀ fuel g g', expand (C := Plain.collaborators) fuel Plain.bare "<a>" g
               ≠ Some ("Y", g').
Proof.
  split_and!.
  - eexists. split; [vm_compute; reflexivity|].
    left. split; [reflexivity|]. eexists. split; reflexivity.
  - eexists. split; [vm_compute; reflexivity|].
    left. split; [reflexivity|]. eexists. split; reflexivity.
  - vm_compute. reflexivity.
  - intros [|[|fuel]] g g'; [done..|].
    assert (Hnone : unavailable Plain.bare
                      (String "<" ("a" +:+ String ">" EmptyString)))
      by (vm_compute; exact I).
    change "<a>"
      with (EmptyString +:+ String "<" ("a" +:+ String ">" EmptyString)).
    rewrite expand_first_tag by (repeat split; discriminate).
    rewrite random_from_category_unavailable by exact Hnone.
    unfold expand_bind. rewrite expand_without_opening by exact I.
    discriminate.
Qed.

Lemma expand_identity_without_snippets_witness :
  ∃ g', expand (C := Plain.collaborators) 20 Plain.with_page
          "say <empty_cat> now" 0%Z
        = Some ("say <empty_cat> now", g').
Proof.
  apply (expand_identity_without_snippets Plain.with_page
           "say <empty_cat> now").
  - apply (tag_verbatim Plain.with_page "say " "empty_cat" " now").
    + repeat split; discriminate.
    + repeat split; discriminate.
    + exact I.
    + apply no_opening. repeat split; discriminate.
  - simpl. lia.
Defined.

Lemma random_from_category_deterministic_witness :
  random_from_category (C := Plain.collaborators) Plain.with_page "<note>" 42
  = random_from_category
      (run (call_migrate_hash_to_id 11) Plain.with_page) "<note>" 42.
Proof.
  apply random_from_category_deterministic.
  - vm_compute. reflexivity.
  - intros it id _ _. vm_compute. reflexivity.
Defined.

Lemma random_from_category_selects_witness :
  random_from_category (C := Plain.collaborators) Plain.with_page "<note>" 42
    = None ↔ unavailable Plain.with_page "<note>".
Proof.
  apply (random_from_category_selects Plain.with_page "<note>" 42).
  apply reachable_call, reachable_start.
Defined.

Lemma add_snippet_from_json_id_checks_witness :
  (add_snippet_from_json (C := Plain.collaborators)
     "<note>" Plain.page Plain.with_page).1 = Throws DuplicateId.
Proof.
  assert (Hreach : reachable Plain.with_page)
    by apply reachable_call, reachable_start.
  assert (Htext : get_member Plain.page "text"
                    ≫= read_translation (Collaborators := Plain.collaborators)
                  = Some "a torn page") by (vm_compute; reflexivity).
  assert (Hid : get_member Plain.page "id" = Some (JsonString "page"))
    by (vm_compute; reflexivity).
  destruct (add_snippet_from_json_id_checks (C := Plain.collaborators)
              "<note>" Plain.page Plain.with_page "a torn page" "page"
              Hreach Htext Hid) as (_ & Hduplicate & _).
  apply Hduplicate. exists "a torn page". vm_compute. reflexivity.
Defined.

Lemma ids_resolve_preserved_witness :
  ids_resolve (C := Plain.collaborators) Plain.with_page.
Proof.
  apply (ids_resolve_preserved (C := Plain.collaborators)
           (call_add_snippet_from_json "<note>" Plain.page) SNIPPET).
  intros cat it id Hit. simpl in Hit. by rewrite lookup_empty in Hit.
Defined.

Lemma get_snippets_by_category_listing_witness :
  get_snippets_by_category (C := Plain.collaborators)
    Plain.with_page "<note>" true
  = listing Plain.with_page {| ids := ["page"]; no_id := [] |} true.
Proof.
  pose proof (get_snippets_by_category_listing (C := Plain.collaborators)
                Plain.with_page "<note>" true
                (reachable_call _ _ reachable_start)) as Hlisting.
  vm_compute in Hlisting. vm_compute. exact (proj1 Hlisting).
Defined.

Lemma add_snippet_from_json_rejects_cleanly_witness :
  snippets_by_id (add_snippet_from_json (C := Plain.collaborators)
                    "<note>" Plain.page Plain.with_page).2
  = snippets_by_id Plain.with_page.
Proof.
  apply (add_snippet_from_json_rejects_cleanly (C := Plain.collaborators)
           "<note>" Plain.page Plain.with_page).
  right. vm_compute. reflexivity.
Defined.

(** ** Further properties of the library *)

Section MoreProperties.
Context `{R : RandomEntry}.

Implicit Types (s : snippet_library) (jo : JsonMembers) (id cat : string).

Ltac entry_cases :=
  rewrite add_snippet_from_json_flat; cbv zeta;
  repeat (case_match; simplify_eq/=).

(** *** What a stored entry looks like afterwards *)

Lemma lookup_push_id s category id cat :
  snippets_by_category (push_id category id s) !! cat =
    if decide (category = cat)
    then Some {| ids := ids (category_or_default s category) ++ [id];
                 no_id := no_id (category_or_default s category) |}
    else snippets_by_category s !! cat.
Proof. simpl. by rewrite lookup_insert. Qed.

Lemma lookup_push_no_id s category text cat :
  snippets_by_category (push_no_id category text s) !! cat =
    if decide (category = cat)
    then Some {| ids := ids (category_or_default s category);
                 no_id := no_id (category_or_default s category) ++ [text] |}
    else snippets_by_category s !! cat.
Proof. simpl. by rewrite lookup_insert. Qed.

(** The library after an identified entry went in, up to the effect and
    the name. *)
Lemma add_snippet_from_json_stored category jo s id :
  get_member jo "id" = Some (JsonString id) →
  snippets_by_id s !! id = None →
  id ≠ NULL_ID →
  ∀ text, get_member jo "text" ≫= read_translation = Some text →
  let s' := (add_snippet_from_json category jo s).2 in
  snippets_by_id s' = <[id := text]> (snippets_by_id s) ∧
  snippets_by_category s' = snippets_by_category (push_id category id s).
Proof.
  intros Hid Hfresh Hvalid text Htext. cbv zeta.
  rewrite add_snippet_from_json_flat. cbv zeta.
  rewrite Htext, (has_member_Some _ _ _ Hid), Hid.
  rewrite decide_False by done.
  rewrite decide_False by (rewrite Hfresh; by intros []).
  by repeat (case_match; simplify_eq/=).
Qed.

(** X1. An identified entry that [add_snippet_from_json] accepts can be
    read back: its text under its id, its name (the empty translation when
    the entry has none), its effect (the one stored before when the entry
    has none), its id at the end of the category's id sequence; the
    anonymous texts of the category, the other ids and the other
    categories are as they were. *)
Theorem add_snippet_from_json_registers category jo s id :
  get_member jo "id" = Some (JsonString id) →
  (add_snippet_from_json category jo s).1 = Returns tt →
  let s' := (add_snippet_from_json category jo s).2 in
  ∃ text,
    get_member jo "text" ≫= read_translation = Some text ∧
    get_snippet_by_id s' id = Some text ∧
    has_snippet_with_id s' id = true ∧
    has_category s' category = true ∧
    ids (category_or_default s' category)
      = ids (category_or_default s category) ++ [id] ∧
    no_id (category_or_default s' category)
      = no_id (category_or_default s category) ∧
    get_name_by_id s' id =
      Some (match get_member jo "name" with
            | Some v => default empty_translation (read_translation v)
            | None => empty_translation
            end) ∧
    get_EOC_by_id s' id =
      (if has_member jo "effect_on_examine"
       then read_talk_effect jo "effect_on_examine"
       else get_EOC_by_id s id) ∧
    (∀ id', id' ≠ id →
       get_snippet_by_id s' id' = get_snippet_by_id s id' ∧
       get_name_by_id s' id' = get_name_by_id s id' ∧
       get_EOC_by_id s' id' = get_EOC_by_id s id') ∧
    (∀ cat, cat ≠ category →
       snippets_by_category s' !! cat = snippets_by_category s !! cat).
Proof.
  intros Hid. cbv zeta.
  rewrite add_snippet_from_json_flat. cbv zeta.
  rewrite (has_member_Some _ _ _ Hid), Hid.
  unfold get_snippet_by_id, get_name_by_id, get_EOC_by_id,
    has_snippet_with_id, has_category, category_or_default.
  destruct (get_member jo "text" ≫= read_translation) as [text|]; [|done].
  destruct (decide (id = NULL_ID)); [done|].
  destruct (decide (is_Some (snippets_by_id s !! id))); [done|].
  intros Hret. exists text. split; [done|]. revert Hret.
  repeat (case_match; simplify_eq/=); intros; try done;
    rewrite ?lookup_insert_eq; simpl;
    split_and!; try done;
    try (by apply bool_decide_eq_true_2);
    try (intros ? ?; by rewrite ?lookup_insert_ne by done).
Qed.

Lemma add_snippet_from_json_accepted category jo s id :
  get_member jo "id" = Some (JsonString id) →
  (add_snippet_from_json category jo s).1 = Returns tt →
  id ≠ NULL_ID ∧ snippets_by_id s !! id = None ∧
  ∃ text, get_member jo "text" ≫= read_translation = Some text.
Proof.
  intros Hid. rewrite add_snippet_from_json_flat. cbv zeta.
  rewrite (has_member_Some _ _ _ Hid), Hid.
  destruct (get_member jo "text" ≫= read_translation) as [text|]; [|done].
  destruct (decide (id = NULL_ID)); [done|].
  destruct (decide (is_Some (snippets_by_id s !! id))) as [|Hnew]; [done|].
  intros _. split_and!; [done| |by exists text].
  by apply eq_None_not_Some.
Qed.

(** X2. When [add_snippet_from_json] throws because the effect or the name
    of the entry cannot be read, the entry has already been stored: its
    text is found under its id and the id is listed in the category, while
    no name has been recorded for it by this call. *)
Theorem add_snippet_from_json_late_throw category jo s :
  (add_snippet_from_json category jo s).1
    = Throws (reader_error "effect_on_examine") ∨
  (add_snippet_from_json category jo s).1 = Throws (reader_error "name") →
  let s' := (add_snippet_from_json category jo s).2 in
  ∃ id text,
    get_member jo "id" = Some (JsonString id) ∧
    get_member jo "text" ≫= read_translation = Some text ∧
    id ≠ NULL_ID ∧ get_snippet_by_id s id = None ∧
    get_snippet_by_id s' id = Some text ∧
    id ∈ ids (category_or_default s' category) ∧
    get_name_by_id s' id = get_name_by_id s id.
Proof.
  cbv zeta. unfold get_snippet_by_id, get_name_by_id, category_or_default.
  entry_cases; intros [?|?]; simplify_eq;
    match goal with
    | Hid : get_member jo "id" = Some (JsonString ?id),
      Hnew : ¬ is_Some (snippets_by_id s !! ?id) |- _ =>
        eexists id, _; rewrite ?lookup_insert_eq; simpl;
        split_and!; try done;
        [ by apply eq_None_not_Some
        | apply elem_of_app; right; by apply list_elem_of_singleton ]
    end.
Qed.

Lemma listing_rows s it add_null_id :
  listing s it add_null_id =
    (if add_null_id && negb (empty (ids it))
     then [(NULL_ID, EmptyString)] else []) ++
    map (fun id => (id, translated (get_snippet_ref_by_id s id))) (ids it).
Proof. reflexivity. Qed.

Lemma get_snippets_by_category_unknown s cat add_null_id :
  snippets_by_category s !! cat = None →
  get_snippets_by_category s cat add_null_id = [].
Proof.
  intros Hcat. unfold get_snippets_by_category, has_category. rewrite Hcat.
  by rewrite bool_decide_eq_false_2 by (by intros []).
Qed.

(** X3. In a library where every listed id resolves, an accepted
    identified entry shows up as the last row of its category's listing,
    with its translated text, and the rows before it are unchanged. *)
Theorem get_snippets_by_category_after_add category jo s id :
  ids_resolve s →
  get_member jo "id" = Some (JsonString id) →
  (add_snippet_from_json category jo s).1 = Returns tt →
  let s' := (add_snippet_from_json category jo s).2 in
  ∃ text,
    get_member jo "text" ≫= read_translation = Some text ∧
    get_snippets_by_category s' category false
      = get_snippets_by_category s category false ++ [(id, translated text)].
Proof.
  intros Hresolve Hid Hret. cbv zeta.
  destruct (add_snippet_from_json_accepted _ _ _ _ Hid Hret)
    as (Hvalid & Hfresh & text & Htext).
  destruct (add_snippet_from_json_stored category jo s id Hid Hfresh Hvalid
              text Htext) as [Hby_id Hby_cat].
  exists text. split; [done|].
  assert (Hnew : snippets_by_category (add_snippet_from_json category jo s).2
                   !! category
                 = Some {| ids := ids (category_or_default s category) ++ [id];
                           no_id := no_id (category_or_default s category) |}).
  { rewrite Hby_cat, lookup_push_id. by rewrite decide_True. }
  rewrite (get_snippets_by_category_known _ _ _ _ Hnew), listing_rows.
  simpl. rewrite map_app. simpl.
  assert (Hsame : ∀ id', id' ≠ id →
            get_snippet_ref_by_id (add_snippet_from_json category jo s).2 id'
            = get_snippet_ref_by_id s id').
  { intros id' Hne. unfold get_snippet_ref_by_id.
    by rewrite Hby_id, lookup_insert_ne. }
  assert (Hlast :
            get_snippet_ref_by_id (add_snippet_from_json category jo s).2 id
            = text).
  { unfold get_snippet_ref_by_id. by rewrite Hby_id, lookup_insert_eq. }
  rewrite Hlast. f_equal. unfold category_or_default.
  destruct (snippets_by_category s !! category) as [it|] eqn:Hit; simpl.
  - rewrite (get_snippets_by_category_known _ _ _ _ Hit), listing_rows. simpl.
    apply map_ext_in. intros id' Hin%list_elem_of_In. f_equal. f_equal.
    apply Hsame. intros ->.
    destruct (Hresolve category it id Hit Hin) as [? Hsome]. congruence.
  - by rewrite get_snippets_by_category_unknown.
Qed.

(** *** What loading keeps *)

Lemma extends_refl s : extends s s.
Proof. split; [done|]. intros cat it Hit. by exists it. Qed.

Lemma extends_indices s0 s s' :
  snippets_by_category s' = snippets_by_category s →
  snippets_by_id s' = snippets_by_id s → extends s0 s → extends s0 s'.
Proof. unfold extends. by intros -> ->. Qed.

Lemma extends_push_no_id s0 s category text :
  extends s0 s → extends s0 (push_no_id category text s).
Proof.
  intros [Hid Hcat]. split; [done|]. intros cat it Hit.
  destruct (Hcat cat it Hit) as (it' & Hit' & Hids & Hno).
  rewrite lookup_push_no_id. unfold category_or_default.
  destruct (decide (category = cat)) as [->|]; [|by exists it'].
  rewrite Hit'. simpl. eexists. split; [done|]. simpl. split; [done|].
  by apply prefix_app_r.
Qed.

Lemma extends_push_id s0 s category id text :
  snippets_by_id s !! id = None →
  extends s0 s → extends s0 (set_snippet id text (push_id category id s)).
Proof.
  intros Hfresh [Hid Hcat]. split.
  - simpl. etrans; [done|]. by apply insert_subseteq.
  - intros cat it Hit.
    destruct (Hcat cat it Hit) as (it' & Hit' & Hids & Hno).
    change (snippets_by_category (set_snippet id text (push_id category id s)))
      with (snippets_by_category (push_id category id s)).
    rewrite lookup_push_id. unfold category_or_default.
    destruct (decide (category = cat)) as [->|]; [|by exists it'].
    rewrite Hit'. simpl. eexists. split; [done|]. simpl. split; [|done].
    by apply prefix_app_r.
Qed.

(** X4. A loading call, returned or thrown, never removes or replaces what
    the library holds: every text stays under its id, and each category
    keeps its ids and its anonymous texts as the beginning of its two
    sequences. *)
Theorem load_extends o s : is_load o = true → extends s (run o s).
Proof.
  intros Hload.
  apply (load_preserves (extends s)); try done.
  - apply extends_indices.
  - apply extends_push_no_id.
  - intros s1 category id text _ Hfresh. by apply extends_push_id.
  - apply extends_refl.
Qed.

Lemma ids_partition_indices s s' :
  snippets_by_category s' = snippets_by_category s →
  snippets_by_id s' = snippets_by_id s →
  ids_resolve s ∧ ids_partition s → ids_resolve s' ∧ ids_partition s'.
Proof. unfold ids_resolve, ids_partition. by intros -> ->. Qed.

Lemma ids_partition_push_no_id s category text :
  ids_resolve s ∧ ids_partition s →
  ids_resolve (push_no_id category text s) ∧
  ids_partition (push_no_id category text s).
Proof.
  intros [Hresolve (Hnodup & Hone & Hlisted)].
  split; [by apply ids_resolve_push_no_id|].
  assert (Hold : ∀ cat it,
    snippets_by_category (push_no_id category text s) !! cat = Some it →
    ∀ id, id ∈ ids it →
      ∃ it0, snippets_by_category s !! cat = Some it0 ∧ ids it0 = ids it).
  { intros cat it. rewrite lookup_push_no_id. unfold category_or_default.
    destruct (decide (category = cat)) as [->|]; [|by eauto].
    intros [= <-] id. simpl.
    destruct (snippets_by_category s !! cat) as [it0|]; simpl; [by eauto|].
    by intros ?%elem_of_nil. }
  split_and!.
  - intros cat it Hit. destruct (ids it) as [|id0 rest] eqn:Hids.
    { constructor. }
    destruct (Hold cat it Hit id0) as (it0 & Hit0 & Heq).
    { rewrite Hids. by left. }
    rewrite <- Hids, <- Heq. by apply (Hnodup cat).
  - intros cat1 it1 cat2 it2 id Hit1 Hit2 Hin1 Hin2.
    destruct (Hold _ _ Hit1 id Hin1) as (it1' & Hit1' & Heq1).
    destruct (Hold _ _ Hit2 id Hin2) as (it2' & Hit2' & Heq2).
    apply (Hone cat1 it1' cat2 it2' id); by rewrite ?Heq1, ?Heq2.
  - intros id Hsome. destruct (Hlisted id Hsome) as (cat & it & Hit & Hin).
    exists cat. rewrite lookup_push_no_id. unfold category_or_default.
    destruct (decide (category = cat)) as [->|]; [|by eauto].
    rewrite Hit. simpl. eexists. by split.
Qed.

Lemma ids_partition_push_id s category id text :
  snippets_by_id s !! id = None →
  ids_resolve s ∧ ids_partition s →
  ids_resolve (set_snippet id text (push_id category id s)) ∧
  ids_partition (set_snippet id text (push_id category id s)).
Proof.
  intros Hfresh [Hresolve (Hnodup & Hone & Hlisted)].
  split; [by apply ids_resolve_push_id|].
  assert (Hunlisted : ∀ cat it,
            snippets_by_category s !! cat = Some it → id ∉ ids it).
  { intros cat it Hit Hin. destruct (Hresolve cat it id Hit Hin). congruence. }
  assert (Hold : ∀ cat it,
    snippets_by_category (set_snippet id text (push_id category id s)) !! cat
      = Some it →
    ∀ id', id' ∈ ids it →
      (cat = category ∧ id' = id) ∨
      (id' ≠ id ∧ ∃ it0, snippets_by_category s !! cat = Some it0 ∧
                         id' ∈ ids it0)).
  { intros cat it.
    change (snippets_by_category (set_snippet id text (push_id category id s)))
      with (snippets_by_category (push_id category id s)).
    rewrite lookup_push_id. unfold category_or_default.
    destruct (decide (category = cat)) as [->|].
    - intros [= <-] id'. simpl.
      intros [Hin | ->%list_elem_of_singleton]%elem_of_app; [|by left].
      right. destruct (snippets_by_category s !! cat) as [it0|] eqn:Hit0;
        simpl in Hin; [|by apply elem_of_nil in Hin].
      split; [|by eauto]. intros ->. by apply (Hunlisted cat it0).
    - intros Hit id' Hin. right. split; [|by eauto].
      intros ->. by apply (Hunlisted cat it). }
  split_and!.
  - intros cat it.
    change (snippets_by_category (set_snippet id text (push_id category id s)))
      with (snippets_by_category (push_id category id s)).
    rewrite lookup_push_id. unfold category_or_default.
    destruct (decide (category = cat)) as [->|]; [|by apply Hnodup].
    intros [= <-]. simpl. apply NoDup_app. split_and!.
    + destruct (snippets_by_category s !! cat) as [it0|] eqn:Hit0; simpl;
        [by apply (Hnodup cat)|constructor].
    + intros id' Hin ->%list_elem_of_singleton.
      destruct (snippets_by_category s !! cat) as [it0|] eqn:Hit0;
        simpl in Hin; [by apply (Hunlisted cat it0)|by apply elem_of_nil in Hin].
    + apply NoDup_singleton.
  - intros cat1 it1 cat2 it2 id' Hit1 Hit2 Hin1 Hin2.
    destruct (Hold _ _ Hit1 id' Hin1)
      as [[Hcat1 Hid1]|[Hne1 (it1' & Hit1' & Hin1')]];
      destruct (Hold _ _ Hit2 id' Hin2)
        as [[Hcat2 Hid2]|[Hne2 (it2' & Hit2' & Hin2')]];
      try congruence.
    by apply (Hone cat1 it1' cat2 it2' id').
  - intros id'. simpl. rewrite lookup_insert.
    destruct (decide (id = id')) as [<-|Hne].
    + intros _. exists category. rewrite lookup_insert_eq. eexists.
      split; [done|]. simpl. apply elem_of_app. right.
      by apply list_elem_of_singleton.
    + intros Hsome. destruct (Hlisted id' Hsome) as (cat & it & Hit & Hin).
      exists cat. rewrite lookup_insert. unfold category_or_default.
      destruct (decide (category = cat)) as [->|]; [|by eauto].
      rewrite Hit. simpl. eexists. split; [done|]. simpl.
      apply elem_of_app. by left.
Qed.

Lemma ids_partition_run o s :
  ids_resolve s ∧ ids_partition s →
  ids_resolve (run o s) ∧ ids_partition (run o s).
Proof.
  intros Hs. destruct (is_load o) eqn:Hload.
  - apply (load_preserves (fun s => ids_resolve s ∧ ids_partition s));
      try done.
    + apply ids_partition_indices.
    + apply ids_partition_push_no_id.
    + intros s1 category id text _ Hfresh. by apply ids_partition_push_id.
  - destruct o; try discriminate Hload; simpl.
    + split; [by apply ids_resolve_run with (o := call_clear_snippets), Hs|].
      unfold ids_partition, clear_snippets. simpl. split_and!.
      * intros cat it. by rewrite lookup_empty.
      * intros cat1 it1 cat2 it2 id. by rewrite lookup_empty.
      * intros id. rewrite lookup_empty. by intros [].
    + destruct (migrate_hash_to_id_indices old_hash s) as (Hcat & Hid & _).
      by apply (ids_partition_indices s).
Qed.

(** X5. In every state the library can reach, the ids are shared out
    among the categories: an id with a text is listed in one category and
    only one, no id is listed twice in a category, and no listed id is
    without a text. *)
Theorem reachable_ids_partition s :
  reachable s →
  ∀ id, is_valid s id = true ↔
    ∃ cat it, snippets_by_category s !! cat = Some it ∧ id ∈ ids it ∧
              NoDup (ids it) ∧
              ∀ cat' it', snippets_by_category s !! cat' = Some it' →
                          id ∈ ids it' → cat' = cat.
Proof.
  intros Hs.
  assert (Hinv : ids_resolve s ∧ ids_partition s).
  { induction Hs as [|o s Hs IH]; [|by apply ids_partition_run].
    split; [apply ids_resolve_start|]. unfold ids_partition. simpl. split_and!.
    - intros cat it. by rewrite lookup_empty.
    - intros cat1 it1 cat2 it2 id. by rewrite lookup_empty.
    - intros id. rewrite lookup_empty. by intros []. }
  destruct Hinv as [Hresolve (Hnodup & Hone & Hlisted)].
  intros id. unfold is_valid, has_snippet_with_id. rewrite bool_decide_eq_true.
  split.
  - intros Hsome. destruct (Hlisted id Hsome) as (cat & it & Hit & Hin).
    exists cat, it. split_and!; [done|done|by apply (Hnodup cat)|].
    intros cat' it' Hit' Hin'. by apply (Hone cat' it' cat it id).
  - intros (cat & it & Hit & Hin & _). by apply (Hresolve cat it).
Qed.

(** *** The null id *)

(** X6. In every state the library can reach the null id is not valid, its
    object is the empty translation, and [migrate_hash_to_id] returns it
    exactly for the hashes that no text of the library has. *)
Theorem null_id_means_absent s :
  reachable s →
  is_valid s NULL_ID = false ∧
  obj s NULL_ID = empty_translation ∧
  ∀ old_hash,
    (migrate_hash_to_id old_hash s).1 = NULL_ID ↔ ¬ hash_known s old_hash.
Proof.
  intros Hs. pose proof (reachable_null_id_absent s Hs) as Hnull.
  split_and!.
  - unfold is_valid, has_snippet_with_id. rewrite Hnull.
    apply bool_decide_eq_false_2. by intros [].
  - unfold obj, get_snippet_ref_by_id. by rewrite Hnull.
  - intros old_hash.
    destruct (migrate_hash_to_id_migrates s old_hash
                (reachable_migration_current s Hs)) as [Hknown Hunknown].
    split; [|done]. intros Hanswer Hhash.
    destruct (Hknown Hhash) as (text & Hid & _). congruence.
Qed.

(** *** Drawing from a category *)

(** X7. Whatever the seed and whatever the library, a text returned by
    [random_from_category] belongs to the category asked for: it is one of
    its anonymous texts, or the text stored for one of its ids. *)
Theorem random_from_category_member s cat seed text :
  random_from_category s cat seed = Some text →
  ∃ it, snippets_by_category s !! cat = Some it ∧
        (text ∈ no_id it ∨
         ∃ id, id ∈ ids it ∧ get_snippet_by_id s id = Some text).
Proof.
  unfold random_from_category.
  destruct (snippets_by_category s !! cat) as [it|]; [|done].
  destruct (empty (ids it) && empty (no_id it)); [done|]. cbv zeta.
  intros Hdraw. exists it. split; [done|]. revert Hdraw.
  case_decide.
  - destruct (ids it !! _) as [id|] eqn:Hid; [|done]. simpl. intros Hdraw.
    right. exists id. split; [|done]. by apply list_elem_of_lookup_2 in Hid.
  - intros Hdraw. left. by apply list_elem_of_lookup_2 in Hdraw.
Qed.

(** X8. [random_id_from_category] returns the null id, and leaves the
    random engine alone, when the category is unknown or has no id, also
    when it has anonymous texts; otherwise it returns one of the ids of
    the category, which in a reachable library is a valid id other than
    the null id. *)
Theorem random_id_from_category_member s cat g :
  reachable s →
  match snippets_by_category s !! cat with
  | None => random_id_from_category s cat g = (NULL_ID, g)
  | Some it =>
      if empty (ids it) then random_id_from_category s cat g = (NULL_ID, g)
      else
        (random_id_from_category s cat g).1 ∈ ids it ∧
        is_valid s (random_id_from_category s cat g).1 = true ∧
        (random_id_from_category s cat g).1 ≠ NULL_ID
  end.
Proof.
  intros Hs. unfold random_id_from_category.
  destruct (snippets_by_category s !! cat) as [it|] eqn:Hit; [|done].
  destruct (empty (ids it)) eqn:Hempty; [done|].
  assert (Hin : (random_entry (ids it) g).1 ∈ ids it).
  { apply random_entry_elem. intros Hnil. by rewrite Hnil in Hempty. }
  destruct (reachable_ids_resolve s Hs cat it _ Hit Hin) as [text Htext].
  split_and!; [done| |].
  - unfold is_valid, has_snippet_with_id. apply bool_decide_eq_true_2.
    by exists text.
  - intros Hnull. rewrite Hnull in Htext.
    by rewrite (reachable_null_id_absent s Hs) in Htext.
Qed.

(** *** More on tag expansion *)


(** X10. [expand] has no guard against a category that leads back to
    itself: when the only snippet of the category of a tag shows a text
    that contains the tag as its first tag, no bound on the recursion lets
    [expand] return on that text, nor on the tag. *)
Theorem expand_self_reference_never_returns s (head body rest : string) :
  StdString.lacks "<" head → StdString.lacks ">" body →
  let tag := String "<" (body +:+ String ">" EmptyString) in
  single_text s tag (head +:+ String "<" (body +:+ String ">" rest)) →
  ∀ fuel g,
    expand fuel s (head +:+ String "<" (body +:+ String ">" rest)) g = None ∧
    expand fuel s tag g = None.
Proof.
  intros Hhead Hbody tag Hone.
  assert (Htext : ∀ fuel g,
    expand fuel s (head +:+ String "<" (body +:+ String ">" rest)) g = None).
  { induction fuel as [|fuel IH]; intros g; [done|].
    rewrite expand_first_tag by done. cbv zeta.
    destruct (random_from_single_text s _ _ (rng_bits g).1 Hone)
      as (text & Hdraw & Hshown).
    fold tag. rewrite Hdraw, Hshown. unfold expand_bind.
    destruct replacement_first; [by rewrite IH|].
    destruct (expand fuel s rest _) as [[b g2]|]; [|done]. by rewrite IH. }
  intros fuel g. split; [done|].
  destruct fuel as [|fuel]; [done|].
  pose proof (expand_first_tag fuel s EmptyString body EmptyString g
                I Hbody) as Hstep.
  cbv zeta in Hstep. rewrite append_empty_l in Hstep. fold tag in Hstep.
  rewrite Hstep.
  destruct (random_from_single_text s _ _ (rng_bits g).1 Hone)
    as (text & Hdraw & Hshown).
  rewrite Hdraw, Hshown. unfold expand_bind.
  destruct replacement_first; [by rewrite Htext|].
  destruct (expand fuel s EmptyString _) as [[b g2]|]; [|done].
  by rewrite Htext.
Qed.

(** X11. A string with a single tag, whose category holds one snippet
    showing a text without ['<'], expands to the string with the tag
    replaced by that text; one value is drawn from the random engine. *)
Theorem expand_single_tag fuel s (head body rest shown : string) g :
  StdString.lacks "<" head → StdString.lacks ">" body →
  StdString.lacks "<" rest → StdString.lacks "<" shown →
  single_text s (String "<" (body +:+ String ">" EmptyString)) shown →
  expand (S (S fuel)) s (head +:+ String "<" (body +:+ String ">" rest)) g
    = Some (head +:+ shown +:+ rest, (rng_bits g).2).
Proof.
  intros Hhead Hbody Hrest Hshown Hone.
  destruct (random_from_single_text s _ shown (rng_bits g).1 Hone)
    as (text & Hdraw & Htext).
  rewrite expand_first_tag by done. cbv zeta.
  rewrite Hdraw, Htext. unfold expand_bind, expand_ret.
  by destruct replacement_first; rewrite !expand_without_opening by done.
Qed.

Lemma length_drop (str : string) n :
  String.length (StdString.drop n str) = String.length str - n.
Proof.
  revert n. induction str as [|a str IH]; intros [|n]; simpl; try done.
Qed.

Lemma take_drop (str : string) n :
  StdString.take n str +:+ StdString.drop n str = str.
Proof.
  revert n. induction str as [|a str IH]; intros [|n]; simpl; try done.
  by rewrite append_cons, IH.
Qed.

Lemma find_lt c (str : string) i :
  StdString.find c str = Some i → i < String.length str.
Proof.
  revert i. induction str as [|a str IH]; intros i; simpl; [done|].
  destruct (Ascii.eqb a c); [intros [= <-]; lia|].
  destruct (StdString.find c str) as [j|]; simpl; [|done].
  intros [= <-]. specialize (IH j eq_refl). lia.
Qed.

Lemma find_from_lt c pos (str : string) i :
  StdString.find_from c pos str = Some i → i < String.length str.
Proof.
  unfold StdString.find_from.
  destruct (StdString.find c (StdString.drop pos str)) as [j|] eqn:Hj;
    simpl; [|done].
  intros [= <-]. apply find_lt in Hj. rewrite length_drop in Hj. lia.
Qed.

(** X12. On a library in which no category has a snippet to offer, such as
    the fresh library or the one left by [clear_snippets], [expand]
    returns every string unchanged as soon as the bound on the recursion
    exceeds the length of the string. *)
Theorem expand_without_any_snippet s :
  (∀ cat, unavailable s cat) →
  ∀ fuel (str : string) g, String.length str < fuel →
    ∃ g', expand fuel s str g = Some (str, g').
Proof.
  intros Hnone. induction fuel as [|fuel IH]; intros str g Hlen; [lia|].
  rewrite expand_S.
  destruct (StdString.find "<" str) as [tag_begin|]; [|by eexists].
  destruct (StdString.find_from ">" (tag_begin + 1) str) as [tag_end|] eqn:Hend;
    [|by eexists].
  cbv beta zeta. unfold random_from_category_rng.
  destruct (rng_bits g) as [seed g1].
  rewrite random_from_category_unavailable by done.
  apply find_from_lt in Hend.
  destruct (IH (StdString.drop (tag_end + 1) str) g1) as [g' Hg'].
  { rewrite length_drop. lia. }
  unfold expand_bind, expand_ret. rewrite Hg'. eexists.
  by rewrite take_drop.
Qed.

Lemma unavailable_clear_snippets s cat : unavailable (clear_snippets s) cat.
Proof. unfold unavailable, clear_snippets. simpl. by rewrite lookup_empty. Qed.

(** X13. After [clear_snippets] every category is unknown and every id is
    invalid: nothing is drawn, nothing is listed, [random_id_from_category]
    and [migrate_hash_to_id] return the null id, and [expand] returns its
    input. *)
Theorem clear_snippets_forgets s :
  let cleared := clear_snippets s in
  (∀ cat, has_category cleared cat = false) ∧
  (∀ id, is_valid cleared id = false ∧ get_snippet_by_id cleared id = None ∧
         obj cleared id = empty_translation) ∧
  (∀ cat seed, random_from_category cleared cat seed = None) ∧
  (∀ cat g, random_id_from_category cleared cat g = (NULL_ID, g)) ∧
  (∀ cat add_null_id, get_snippets_by_category cleared cat add_null_id = []) ∧
  (∀ old_hash, (migrate_hash_to_id old_hash cleared).1 = NULL_ID) ∧
  (∀ (str : string) g,
     ∃ g', expand (S (String.length str)) cleared str g = Some (str, g')).
Proof.
  cbv zeta. split_and!.
  - intros cat. unfold has_category, clear_snippets. simpl.
    rewrite lookup_empty. apply bool_decide_eq_false_2. by intros [].
  - intros id. unfold is_valid, has_snippet_with_id, get_snippet_by_id, obj,
      get_snippet_ref_by_id, clear_snippets. simpl. rewrite lookup_empty.
    split_and!; try done.
  - intros cat seed. apply random_from_category_unavailable,
      unavailable_clear_snippets.
  - intros cat g. unfold random_id_from_category, clear_snippets. simpl.
    by rewrite lookup_empty.
  - intros cat add_null_id. apply get_snippets_by_category_unknown.
    unfold clear_snippets. simpl. by rewrite lookup_empty.
  - intros old_hash. unfold migrate_hash_to_id, clear_snippets. simpl.
    unfold build_hash_to_id. rewrite map_to_list_empty. simpl.
    by rewrite lookup_empty.
  - intros str g. apply expand_without_any_snippet; [|lia].
    apply unavailable_clear_snippets.
Qed.

(** *** Loading arrays *)

Lemma set_hash_to_id_migration_reset s :
  hash_to_id_migration s = None → set_hash_to_id_migration None s = s.
Proof. destruct s. simpl. by intros ->. Qed.

Lemma for_each_entry_app category (front back : list JsonValue) s :
  for_each_entry category (front ++ back) s =
    match for_each_entry category front s with
    | (Returns _, s1) => for_each_entry category back s1
    | (Throws e, s1) => (Throws e, s1)
    end.
Proof.
  revert s. induction front as [|entry front IH]; intros s; [done|].
  simpl. unfold load_bind.
  destruct (add_array_entry category entry s) as [[[]|e] s1]; [|done].
  apply IH.
Qed.

(** X14. Loading an array is loading its beginning and then its end:
    [add_snippets_from_json] on two arrays put together leaves the library
    and ends as the call on the first followed, if that one returned, by
    the call on the second; when an entry throws, the entries before it
    stay loaded and those after it are not looked at. *)
Theorem add_snippets_from_json_app category (front back : list JsonValue) s :
  add_snippets_from_json category (front ++ back) s =
    match add_snippets_from_json category front s with
    | (Returns _, s1) => add_snippets_from_json category back s1
    | (Throws e, s1) => (Throws e, s1)
    end.
Proof.
  pose proof (add_snippets_from_json_invalidates category front s) as Hreset.
  revert Hreset.
  unfold add_snippets_from_json, load_bind, load_modify.
  rewrite for_each_entry_app.
  destruct (for_each_entry category front _) as [[[]|e] s1]; [|done].
  simpl. intros Hreset. by rewrite set_hash_to_id_migration_reset.
Qed.

Lemma for_each_entry_strings category (jarr : list JsonValue)
    (texts : list translation) s :
  Forall2 (fun entry text =>
             test_string entry = true ∧ read_translation entry = Some text)
          jarr texts →
  for_each_entry category jarr s =
    (Returns tt, foldl (fun s text => push_no_id category text s) s texts).
Proof.
  intros Hall. revert s.
  induction Hall as [|entry text jarr texts [Hstring Hread] _ IH]; intros s;
    [done|].
  simpl. unfold load_bind, add_array_entry.
  rewrite Hstring, Hread. simpl. apply IH.
Qed.

Lemma foldl_push_no_id category (texts : list translation) s :
  let s' := foldl (fun s text => push_no_id category text s) s texts in
  no_id (category_or_default s' category)
    = no_id (category_or_default s category) ++ texts ∧
  ids (category_or_default s' category) = ids (category_or_default s category) ∧
  has_category s' category = has_category s category || negb (empty texts) ∧
  snippets_by_id s' = snippets_by_id s ∧
  EOC_by_id s' = EOC_by_id s ∧
  name_by_id s' = name_by_id s ∧
  hash_to_id_migration s' = hash_to_id_migration s ∧
  ∀ cat, cat ≠ category →
    snippets_by_category s' !! cat = snippets_by_category s !! cat.
Proof.
  revert s. induction texts as [|text texts IH]; intros s; simpl.
  - rewrite app_nil_r, orb_false_r. by split_and!.
  - destruct (IH (push_no_id category text s))
      as (Hno & Hids & Hhas & Hid & Heoc & Hname & Hhash & Hother).
    assert (Hbucket : category_or_default (push_no_id category text s) category
              = {| ids := ids (category_or_default s category);
                   no_id := no_id (category_or_default s category) ++ [text] |}).
    { unfold category_or_default at 1. by rewrite lookup_push_no_id, decide_True. }
    rewrite Hbucket in Hno, Hids. simpl in Hno, Hids.
    split_and!; try done.
    + by rewrite Hno, <- app_assoc.
    + rewrite Hhas. unfold has_category at 1.
      rewrite lookup_push_no_id, decide_True by done.
      rewrite bool_decide_eq_true_2 by done. by rewrite orb_true_r.
    + intros cat Hne. rewrite Hother by done.
      by rewrite lookup_push_no_id, decide_False.
Qed.

(** X15. An array of strings that all read as translations is loaded
    whole: [add_snippets_from_json] returns, the texts are appended in the
    order of the array to the anonymous texts of the category, and nothing
    else changes apart from the reset of [hash_to_id_migration].  The
    category becomes known unless the array is empty: an empty array does
    not create it. *)
Theorem add_snippets_from_json_strings category (jarr : list JsonValue)
    (texts : list translation) s :
  Forall2 (fun entry text =>
             test_string entry = true ∧ read_translation entry = Some text)
          jarr texts →
  let r := add_snippets_from_json category jarr s in
  r.1 = Returns tt ∧
  no_id (category_or_default r.2 category)
    = no_id (category_or_default s category) ++ texts ∧
  ids (category_or_default r.2 category) = ids (category_or_default s category) ∧
  has_category r.2 category = has_category s category || negb (empty jarr) ∧
  snippets_by_id r.2 = snippets_by_id s ∧
  EOC_by_id r.2 = EOC_by_id s ∧
  name_by_id r.2 = name_by_id s ∧
  hash_to_id_migration r.2 = None ∧
  ∀ cat, cat ≠ category →
    snippets_by_category r.2 !! cat = snippets_by_category s !! cat.
Proof.
  intros Hall. cbv zeta.
  unfold add_snippets_from_json, load_bind, load_modify.
  rewrite (for_each_entry_strings _ _ texts) by done. simpl.
  destruct (foldl_push_no_id category texts (set_hash_to_id_migration None s))
    as (Hno & Hids & Hhas & Hid & Heoc & Hname & Hhash & Hother).
  split_and!; try done.
  rewrite Hhas. f_equal. f_equal. by destruct Hall.
Qed.

(** X16. An entry object without [id] whose [text] is a string is loaded
    exactly as that string would be as an element of an array: the two
    calls return and leave the same library. *)
Theorem add_snippet_from_json_as_string category jo s (v : JsonValue) text :
  has_member jo "id" = false →
  get_member jo "text" = Some v →
  test_string v = true →
  read_translation v = Some text →
  add_snippet_from_json category jo s = add_snippets_from_json category [v] s ∧
  add_snippet_from_json category jo s
    = (Returns tt, push_no_id category text (set_hash_to_id_migration None s)).
Proof.
  intros Hno_id Htext Hstring Hread.
  rewrite add_snippet_from_json_flat. cbv zeta.
  rewrite Htext. simpl. rewrite Hread, Hno_id.
  unfold add_snippets_from_json, load_bind, load_modify. simpl.
  unfold load_bind, add_array_entry. by rewrite Hstring, Hread.
Qed.

(** *** Migration after a load *)

(** X17. An accepted identified entry is found again through its legacy
    hash: in a reachable library where no text has the hash of the new
    text, [migrate_hash_to_id] called with that hash after the load
    returns the id of the new entry. *)
Theorem migrate_hash_to_id_after_add category jo s id text old_hash :
  reachable s →
  get_member jo "id" = Some (JsonString id) →
  get_member jo "text" ≫= read_translation = Some text →
  (add_snippet_from_json category jo s).1 = Returns tt →
  legacy_hash text = Some old_hash →
  ¬ hash_known s old_hash →
  (migrate_hash_to_id old_hash (add_snippet_from_json category jo s).2).1 = id.
Proof.
  intros Hs Hid Htext Hret Hhash Hnew.
  destruct (add_snippet_from_json_accepted _ _ _ _ Hid Hret)
    as (Hvalid & Hfresh & _).
  destruct (add_snippet_from_json_stored category jo s id Hid Hfresh Hvalid
              text Htext) as [Hby_id _].
  assert (Hreach : reachable (add_snippet_from_json category jo s).2)
    by apply (reachable_call (call_add_snippet_from_json category jo) s Hs).
  destruct (migrate_hash_to_id_migrates _ old_hash
              (reachable_migration_current _ Hreach)) as [Hknown _].
  destruct Hknown as (text' & Hanswer & Hhash').
  { exists id, text. by rewrite Hby_id, lookup_insert_eq. }
  rewrite Hby_id, lookup_insert in Hanswer.
  case_decide as Hsame; [done|].
  destruct Hnew. by eexists _, text'.
Qed.

End MoreProperties.

(** ** The further properties at concrete libraries *)

Lemma add_snippet_from_json_registers_witness :
  get_snippet_by_id (C := Plain.collaborators) Plain.with_page "page"
    = Some "a torn page".
Proof.
  assert (Hid : get_member Plain.page "id" = Some (JsonString "page"))
    by (vm_compute; reflexivity).
  assert (Hret : (add_snippet_from_json (C := Plain.collaborators)
                    "<note>" Plain.page SNIPPET).1 = Returns tt)
    by (vm_compute; reflexivity).
  destruct (add_snippet_from_json_registers (C := Plain.collaborators)
              "<note>" Plain.page SNIPPET "page" Hid Hret)
    as (text & Htext & Hget & _).
  vm_compute in Htext. injection Htext as <-. exact Hget.
Defined.

Lemma add_snippet_from_json_late_throw_witness :
  ∃ id text,
    get_member PlainDraw.broken_effect "id" = Some (JsonString id) ∧
    get_snippet_by_id (C := Plain.collaborators)
      (add_snippet_from_json "<note>" PlainDraw.broken_effect SNIPPET).2 id
      = Some text.
Proof.
  assert (Hthrown :
    (add_snippet_from_json (C := Plain.collaborators)
       "<note>" PlainDraw.broken_effect SNIPPET).1
      = Throws (reader_error "effect_on_examine") ∨
    (add_snippet_from_json (C := Plain.collaborators)
       "<note>" PlainDraw.broken_effect SNIPPET).1
      = Throws (reader_error "name"))
    by (left; vm_compute; reflexivity).
  destruct (add_snippet_from_json_late_throw (C := Plain.collaborators)
              "<note>" PlainDraw.broken_effect SNIPPET Hthrown)
    as (id & text & Hid & _ & _ & _ & Hget & _).
  exists id, text. split; [exact Hid | exact Hget].
Defined.

Lemma get_snippets_by_category_after_add_witness :
  ∃ text : string,
    get_snippets_by_category (C := Plain.collaborators)
      Plain.with_page "<note>" false
    = get_snippets_by_category (C := Plain.collaborators)
        SNIPPET "<note>" false ++ [("page", text)].
Proof.
  assert (Hresolve : ids_resolve (C := Plain.collaborators) SNIPPET).
  { intros cat it id Hit. simpl in Hit. by rewrite lookup_empty in Hit. }
  assert (Hid : get_member Plain.page "id" = Some (JsonString "page"))
    by (vm_compute; reflexivity).
  assert (Hret : (add_snippet_from_json (C := Plain.collaborators)
                    "<note>" Plain.page SNIPPET).1 = Returns tt)
    by (vm_compute; reflexivity).
  destruct (get_snippets_by_category_after_add (C := Plain.collaborators)
              "<note>" Plain.page SNIPPET "page" Hresolve Hid Hret)
    as (text & _ & Hrows).
  exists text. exact Hrows.
Defined.

Lemma load_extends_witness :
  extends (C := Plain.collaborators) Plain.with_page PlainDraw.mixed.
Proof.
  exact (load_extends (C := Plain.collaborators)
           (call_add_snippets_from_json "<note>" [JsonString "a scrap"])
           Plain.with_page eq_refl).
Defined.

Lemma reachable_ids_partition_witness :
  is_valid (C := Plain.collaborators) Plain.with_page "page" = true ↔
  ∃ cat it, snippets_by_category Plain.with_page !! cat = Some it ∧
            "page" ∈ ids it ∧ NoDup (ids it) ∧
            ∀ cat' it', snippets_by_category Plain.with_page !! cat' = Some it' →
                        "page" ∈ ids it' → cat' = cat.
Proof.
  exact (reachable_ids_partition (C := Plain.collaborators) Plain.with_page
           (reachable_call _ _ reachable_start) "page").
Defined.

Lemma null_id_means_absent_witness :
  is_valid (C := Plain.collaborators) Plain.with_page
    (NULL_ID (Collaborators := Plain.collaborators)) = false.
Proof.
  exact (proj1 (null_id_means_absent (C := Plain.collaborators)
                  Plain.with_page (reachable_call _ _ reachable_start))).
Defined.

Lemma random_from_category_member_witness :
  ∃ it, snippets_by_category (C := Plain.collaborators) PlainDraw.mixed
          !! "<note>" = Some it ∧
        ("a scrap" ∈ no_id it ∨
         ∃ id, id ∈ ids it ∧
               get_snippet_by_id PlainDraw.mixed id = Some "a scrap").
Proof.
  assert (Hdraw : random_from_category (C := Plain.collaborators)
                    PlainDraw.mixed "<note>" 1 = Some "a scrap")
    by (vm_compute; reflexivity).
  exact (random_from_category_member (C := Plain.collaborators)
           PlainDraw.mixed "<note>" 1 "a scrap" Hdraw).
Defined.

Lemma random_id_from_category_member_witness :
  (random_id_from_category (R := PlainDraw.entries)
     PlainDraw.mixed "<note>" 0%Z).1
  ≠ NULL_ID (Collaborators := Plain.collaborators).
Proof.
  assert (Hreach : reachable (C := Plain.collaborators) PlainDraw.mixed)
    by apply reachable_call, reachable_call, reachable_start.
  pose proof (random_id_from_category_member (R := PlainDraw.entries)
                PlainDraw.mixed "<note>" 0%Z Hreach) as Hdrawn.
  vm_compute in Hdrawn. vm_compute. exact (proj2 (proj2 Hdrawn)).
Defined.


Lemma expand_self_reference_never_returns_witness :
  expand (C := Plain.collaborators) 50 PlainDraw.looping "<loop>" 0%Z = None.
Proof.
  assert (Hhead : StdString.lacks "<" "again ") by (repeat split; discriminate).
  assert (Hbody : StdString.lacks ">" "loop") by (repeat split; discriminate).
  assert (Hone : single_text (C := Plain.collaborators) PlainDraw.looping
                   (String "<" ("loop" +:+ String ">" EmptyString))
                   ("again " +:+ String "<" ("loop" +:+ String ">" EmptyString))).
  { eexists. split; [vm_compute; reflexivity|].
    left. split; [reflexivity|]. eexists. split; reflexivity. }
  exact (proj2 (expand_self_reference_never_returns (C := Plain.collaborators)
                  PlainDraw.looping "again " "loop" EmptyString
                  Hhead Hbody Hone 50 0%Z)).
Defined.

Lemma expand_single_tag_witness :
  expand (C := Plain.collaborators) 2 Plain.bracketed "say <b>!" 0%Z
    = Some ("say Y!", 1%Z).
Proof.
  assert (Hhead : StdString.lacks "<" "say ") by (repeat split; discriminate).
  assert (Hbody : StdString.lacks ">" "b") by (repeat split; discriminate).
  assert (Hrest : StdString.lacks "<" "!") by (repeat split; discriminate).
  assert (Hshown : StdString.lacks "<" "Y") by (repeat split; discriminate).
  assert (Hone : single_text (C := Plain.collaborators) Plain.bracketed
                   (String "<" ("b" +:+ String ">" EmptyString)) "Y").
  { eexists. split; [vm_compute; reflexivity|].
    left. split; [reflexivity|]. eexists. split; reflexivity. }
  exact (expand_single_tag (C := Plain.collaborators) 0 Plain.bracketed
           "say " "b" "!" "Y" 0%Z Hhead Hbody Hrest Hshown Hone).
Defined.

Lemma expand_without_any_snippet_witness :
  ∃ g', expand (C := Plain.collaborators) 10 SNIPPET "<x> y" 0%Z
        = Some ("<x> y", g').
Proof.
  assert (Hnone : ∀ cat, unavailable (C := Plain.collaborators) SNIPPET cat).
  { intros cat. unfold unavailable. simpl. by rewrite lookup_empty. }
  assert (Hlen : String.length "<x> y" < 10) by (simpl; lia).
  exact (expand_without_any_snippet (C := Plain.collaborators) SNIPPET Hnone
           10 "<x> y" 0%Z Hlen).
Defined.

Lemma add_snippets_from_json_strings_witness :
  no_id (category_or_default (C := Plain.collaborators)
           PlainDraw.mixed "<note>")
  = no_id (category_or_default Plain.with_page "<note>") ++ ["a scrap"].
Proof.
  assert (Hall : Forall2
            (fun entry text =>
               test_string entry = true ∧
               read_translation (Collaborators := Plain.collaborators) entry
                 = Some text)
            [JsonString "a scrap"] ["a scrap"]).
  { constructor; [split; reflexivity | constructor]. }
  exact (proj1 (proj2 (add_snippets_from_json_strings
                         (C := Plain.collaborators) "<note>"
                         [JsonString "a scrap"] ["a scrap"] Plain.with_page
                         Hall))).
Defined.

Lemma add_snippet_from_json_as_string_witness :
  add_snippet_from_json (C := Plain.collaborators) "<note>"
    [("text", JsonString "a scrap")] Plain.with_page
  = add_snippets_from_json "<note>" [JsonString "a scrap"] Plain.with_page.
Proof.
  assert (Hno_id : has_member [("text", JsonString "a scrap")] "id" = false)
    by (vm_compute; reflexivity).
  assert (Htext : get_member [("text", JsonString "a scrap")] "text"
                  = Some (JsonString "a scrap")) by (vm_compute; reflexivity).
  assert (Hread : read_translation (Collaborators := Plain.collaborators)
                    (JsonString "a scrap") = Some "a scrap") by reflexivity.
  exact (proj1 (add_snippet_from_json_as_string (C := Plain.collaborators)
                  "<note>" [("text", JsonString "a scrap")] Plain.with_page
                  (JsonString "a scrap") "a scrap"
                  Hno_id Htext eq_refl Hread)).
Defined.

Lemma migrate_hash_to_id_after_add_witness :
  (migrate_hash_to_id (C := Plain.collaborators) 11 Plain.with_page).1 = "page".
Proof.
  assert (Hid : get_member Plain.page "id" = Some (JsonString "page"))
    by (vm_compute; reflexivity).
  assert (Htext : get_member Plain.page "text"
                    ≫= read_translation (Collaborators := Plain.collaborators)
                  = Some "a torn page") by (vm_compute; reflexivity).
  assert (Hret : (add_snippet_from_json (C := Plain.collaborators)
                    "<note>" Plain.page SNIPPET).1 = Returns tt)
    by (vm_compute; reflexivity).
  assert (Hhash : legacy_hash (Collaborators := Plain.collaborators)
                    "a torn page" = Some 11%Z) by (vm_compute; reflexivity).
  assert (Hnew : ¬ hash_known (C := Plain.collaborators) SNIPPET 11).
  { intros (id & text & Hin & _). simpl in Hin. by rewrite lookup_empty in Hin. }
  exact (migrate_hash_to_id_after_add (C := Plain.collaborators)
           "<note>" Plain.page SNIPPET "page" "a torn page" 11
           reachable_start Hid Htext Hret Hhash Hnew).
Defined.
